(** * FitScore matching engine and job-description extractor

    A shallow embedding of the scoring and extraction logic of the job
    application assistant ([job_apply_assistant.py], [replit_app.py]) and
    the properties its specification states about them.

    Texts are Rocq strings: sequences of 8-bit characters, read as the
    Unicode code points U+0000..U+00FF.  The character classes below are
    Python's on that range ([\s], [\d] and [str.lower] of a [str]). *)

From Stdlib Require Import ZArith QArith Qabs Qpower Lqa Lia Bool List Ascii String.
From Stdlib Require Import Uint63 PrimFloat FloatOps SpecFloat.
From stdpp Require Import base gmap sets list strings.
Import ListNotations.

Local Open Scope Z_scope.

(** ** Characters *)

Module Char.

Definition code (c : ascii) : N := N_of_ascii c.

Definition in_range (lo hi : N) (c : ascii) : bool :=
  ((lo <=? code c) && (code c <=? hi))%N.

(** [[A-Z]], [[a-z]], [[A-Za-z]] and [[0-9]] of the token pattern. *)
Definition is_upper (c : ascii) : bool := in_range 65 90 c.
Definition is_lower (c : ascii) : bool := in_range 97 122 c.
Definition is_letter (c : ascii) : bool := is_upper c || is_lower c.
Definition is_ascii_digit (c : ascii) : bool := in_range 48 57 c.

(** [\d] on a [str]: the decimal digits; below U+0100 these are 0-9. *)
Definition is_digit (c : ascii) : bool := in_range 48 57 c.

(** [\s] on a [str] and [str.isspace]: below U+0100 these are
    U+0009..U+000D, U+001C..U+001F, U+0020, U+0085 and U+00A0. *)
Definition is_space (c : ascii) : bool :=
  in_range 9 13 c || in_range 28 31 c || (code c =? 32)%N
  || (code c =? 133)%N || (code c =? 160)%N.

(** [str.lower] on one character: A-Z, and U+00C0..U+00DE except the
    multiplication sign U+00D7, move up by 32; every other character
    below U+0100 is its own lowercase. *)
Definition lower (c : ascii) : ascii :=
  if is_upper c || (in_range 192 222 c && negb (code c =? 215)%N)
  then ascii_of_N (code c + 32)
  else c.

(** The second class of the token pattern: [[A-Za-z0-9+.#/\-]]. *)
Definition is_token_char (c : ascii) : bool :=
  is_letter c || is_ascii_digit c
  || (code c =? 43)%N   (* + *)
  || (code c =? 46)%N   (* . *)
  || (code c =? 35)%N   (* # *)
  || (code c =? 47)%N   (* / *)
  || (code c =? 45)%N.  (* - *)

End Char.

(** ** Python string helpers *)

Definition chars (s : string) : list ascii := list_ascii_of_string s.
Definition text (l : list ascii) : string := string_of_list_ascii l.

(** [s.lower()] on a text of this model, whose characters are below
    U+0100: there [str.lower] works character by character, as
    [Char.lower] does.  Above U+00FF it also yields ASCII letters (U+212A,
    the Kelvin sign, becomes [k]); such texts are outside the model. *)
Definition str_lower (s : string) : string := text (map Char.lower (chars s)).

(** ** Tokenizer *)

(** [STOPWORDS] *)
Definition STOPWORDS : gset string :=
  list_to_set
    ["the"; "and"; "for"; "with"; "you"; "your"; "our"; "are"; "this";
     "that"; "will"; "have"; "has"; "in"; "of"; "to"; "on"; "a"; "an";
     "is"; "be"; "as"; "at"; "or"; "we"; "by"; "it"; "from"; "their";
     "they"; "his"; "her"; "he"; "she"]%string.

(** [TOKEN_RE.findall(text)] for
    [TOKEN_RE = [A-Za-z][A-Za-z0-9+.#/\-]{1,}].

    The scan goes left to right.  [cur] is the match in progress, most
    recent character first: [None] while no match is open.  A match opens
    at a letter and takes every following character of the second class
    (the quantifier is greedy).  It is reported when it ends with at
    least two characters; a lone letter is no match, and the scan resumes
    at the character after it.  The character that ends a match is
    outside the second class, hence not a letter, so no match opens on
    it. *)
Definition close_match (cur : option (list ascii)) : list (list ascii) :=
  match cur with
  | Some (c2 :: c1 :: acc) => [rev (c2 :: c1 :: acc)]
  | _ => []
  end.

Fixpoint scan_tokens (cur : option (list ascii)) (s : list ascii)
  : list (list ascii) :=
  match s with
  | [] => close_match cur
  | c :: rest =>
      match cur with
      | None =>
          if Char.is_letter c then scan_tokens (Some [c]) rest
          else scan_tokens None rest
      | Some acc =>
          if Char.is_token_char c then scan_tokens (Some (c :: acc)) rest
          else close_match cur ++ scan_tokens None rest
      end
  end.

Definition TOKEN_RE_findall (s : string) : list string :=
  map text (scan_tokens None (chars s)).

(** [_tokens(text)]:
    [[t.lower() for t in TOKEN_RE.findall(text) if t.lower() not in STOPWORDS]] *)
Definition _tokens (s : string) : list string :=
  map str_lower
    (filter (fun t => str_lower t ∉ STOPWORDS)
       (TOKEN_RE_findall s)).

(** [set(_tokens(text))] *)
Definition token_set (s : string) : gset string := list_to_set (_tokens s).

(** ** Python numbers

    A Python [float] is an IEEE 754 binary64 number.  Every finite one is
    a rational, and each arithmetic operation returns the exact result
    rounded to the nearest representable number, ties to the even
    mantissa.  [RN] is that rounding on the rationals, with the gradual
    underflow of binary64 (the exponent of the last mantissa bit never
    goes below -1074).  Results at or above 2^1024 overflow; the scorer
    never leaves the interval from 0 to 100. *)

Module Float64.

Local Open Scope Q_scope.

(** Round to the nearest integer, ties to even: Python's [round] of a
    float, and the rounding of a binary64 mantissa. *)
Definition round_half_even (x : Q) : Z :=
  let y := Qred x in
  let a := Qnum y in
  let b := Zpos (Qden y) in
  let q := (a / b)%Z in
  match (2 * (a mod b) ?= b)%Z with
  | Lt => q
  | Gt => (q + 1)%Z
  | Eq => if Z.even q then q else (q + 1)%Z
  end.

(** The integer [e] with [2^e <= x < 2^(e+1)], for [x > 0]. *)
Definition ilog2 (x : Q) : Z :=
  let e0 := (Z.log2 (Qnum x) - Z.log2 (Zpos (Qden x)))%Z in
  if Qle_bool (2 ^ e0) x then e0 else (e0 - 1)%Z.

(** Exponent of the unit in the last place of the binary64 numbers
    around [x]: 53 bits of mantissa, never below -1074. *)
Definition ulp_exp (x : Q) : Z := Z.max (ilog2 (Qabs x) - 52) (-1074).

Definition RN (x : Q) : Q :=
  let y := Qred x in
  if Qeq_bool y 0 then 0
  else
    let e := ulp_exp y in
    Qred (inject_Z (round_half_even (y / 2 ^ e)) * 2 ^ e).

(** A float literal, e.g. [0.4]: the binary64 number nearest to the
    decimal written. *)
Definition lit (decimal : Q) : Q := RN decimal.

(** [float(n)] for an [int]. *)
Definition of_int (n : Z) : Q := RN (inject_Z n).

Definition fmul (x y : Q) : Q := RN (x * y).
Definition fadd (x y : Q) : Q := RN (x + y).

(** Half an ulp relative to the number rounded: 2^-53. *)
Definition eps : Q := 1 # 9007199254740992.

End Float64.

(** Exceptions the scorer's arithmetic can raise. *)
Inductive exn := ZeroDivisionError.

Inductive result (A : Type) :=
| Ok (a : A)
| Raise (e : exn).
Arguments Ok {A} a.
Arguments Raise {A} e.

#[global] Instance result_ret : MRet result := fun A a => Ok a.

#[global] Instance result_bind : MBind result := fun A B k r =>
  match r with
  | Ok a => k a
  | Raise e => Raise e
  end.

(** The exact quotient of two integers. *)
Definition ratio (k n : Z) : Q := (inject_Z k / inject_Z n)%Q.

(** [a / b] on two [int]s: the correctly rounded quotient, or
    [ZeroDivisionError]. *)
Definition int_truediv (a b : Z) : result Q :=
  if (b =? 0)%Z then Raise ZeroDivisionError
  else Ok (Float64.RN (ratio a b)).

(** [round(x)] for a float [x]. *)
Definition py_round (x : Q) : Z := Float64.round_half_even x.

(** [len(s)] for a set. *)
Definition len (s : gset string) : Z := Z.of_nat (size s).

(** ** The years pattern *)

(** Longest prefix of [l] whose elements satisfy [p], and the rest. *)
Fixpoint span {A} (p : A -> bool) (l : list A) : list A * list A :=
  match l with
  | [] => ([], [])
  | x :: r =>
      if p x then let '(a, b) := span p r in (x :: a, b) else ([], l)
  end.

Fixpoint starts_with (p s : list ascii) : bool :=
  match p, s with
  | [], _ => true
  | _ :: _, [] => false
  | a :: p', b :: s' => Ascii.eqb a b && starts_with p' s'
  end.

Definition years : list ascii := chars "years".

(** A match of [(\d+)\s+years] at the start of [s]: the captured digits
    and the length of the match.  Both quantifiers are greedy, and giving
    back a character never helps: the character after a shorter run of
    digits is a digit, not a space, and the one after a shorter run of
    spaces is a space, not [y]. *)
Definition match_years_at (s : list ascii) : option (list ascii * nat) :=
  let '(ds, r1) := span Char.is_digit s in
  let '(ws, r2) := span Char.is_space r1 in
  match ds, ws with
  | _ :: _, _ :: _ =>
      if starts_with years r2
      then Some (ds, (length ds + length ws + length years)%nat)
      else None
  | _, _ => None
  end.

(** The successive non-overlapping matches, left to right; [skip] counts
    the characters of the last match still to step over. *)
Fixpoint findall_years_from (skip : nat) (s : list ascii) : list string :=
  match s with
  | [] => []
  | _ :: rest =>
      match skip with
      | S k => findall_years_from k rest
      | O =>
          match match_years_at s with
          | Some (ds, n) => text ds :: findall_years_from (n - 1) rest
          | None => findall_years_from 0 rest
          end
      end
  end.

(** [re.findall(r"(\d+)\s+years", s)] *)
Definition re_findall_years (s : string) : list string :=
  findall_years_from 0 (chars s).

(** ** Fit scorer *)

Definition SENIORITY : list string :=
  ["intern"; "junior"; "associate"; "mid"; "senior"; "lead"; "principal";
   "director"; "vp"; "chief"]%string.

(** Truth value of a list. *)
Definition truthy {A} (l : list A) : bool :=
  match l with [] => false | _ :: _ => true end.

Definition bool_to_int (b : bool) : Z := if b then 1 else 0.

Definition keyword_score_of (coverage : Q) : Z :=
  py_round (Float64.fmul coverage (Float64.of_int 100)).

Definition seniority_match_of (jd_tokens res_tokens : gset string) : Z :=
  let jd_sen := filter (fun s => s ∈ jd_tokens) SENIORITY in
  let res_sen := filter (fun s => s ∈ res_tokens) SENIORITY in
  if (truthy jd_sen && existsb (fun s => bool_decide (s ∈ res_sen)) jd_sen)
     || negb (truthy jd_sen)
  then 100 else 40.

Definition numeric_match_of (jd_text resume_md : string) : Z :=
  let jd_years := re_findall_years (str_lower jd_text) in
  let res_years := re_findall_years (str_lower resume_md) in
  if negb (truthy jd_years) then 100
  else if truthy res_years then 80 else 30.

(** [keyword_score * 0.4 + seniority_match * 0.2 + numeric_match * 0.1
     + 0.3 * 100 * (len(overlap) > 0)], a float. *)
Definition weighted_sum (keyword_score seniority_match numeric_match : Z)
    (any_overlap : bool) : Q :=
  let f := Float64.of_int in
  let lit := Float64.lit in
  let add := Float64.fadd in
  let mul := Float64.fmul in
  add (add (add (mul (f keyword_score) (lit (4 # 10)%Q))
                (mul (f seniority_match) (lit (2 # 10)%Q)))
           (mul (f numeric_match) (lit (1 # 10)%Q)))
      (mul (mul (lit (3 # 10)%Q) (f 100)) (f (bool_to_int any_overlap))).

(** [round(...)] of that sum: [total]. *)
Definition weighted_total (keyword_score seniority_match numeric_match : Z)
    (any_overlap : bool) : Z :=
  py_round (weighted_sum keyword_score seniority_match numeric_match
              any_overlap).

(** [compute_fit_score(jd_text, resume_md)]: the overall score and the
    breakdown dictionary. *)
Definition compute_fit_score (jd_text resume_md : string)
  : result (Z * gmap string Z) :=
  let jd_tokens := token_set jd_text in
  let res_tokens := token_set resume_md in
  if bool_decide (jd_tokens = ∅) then Ok (0, ∅)
  else
    let overlap := jd_tokens ∩ res_tokens in
    coverage ← int_truediv (len overlap) (len jd_tokens);
    let keyword_score := keyword_score_of coverage in
    let seniority_match := seniority_match_of jd_tokens res_tokens in
    let numeric_match := numeric_match_of jd_text resume_md in
    let total :=
      weighted_total keyword_score seniority_match numeric_match
        (0 <? len overlap) in
    let breakdown : gmap string Z :=
      {[ "keyword_coverage"%string := keyword_score;
         "seniority"%string := seniority_match;
         "numeric"%string := numeric_match;
         "overall"%string := total ]} in
    Ok (total, breakdown).

(** ** Text extractor: the generic fallback

    The HTML parser and the boilerplate remover are libraries outside the
    repository.  A parsed page is taken as the list of its text nodes in
    document order, script and style content already removed. *)

(** [re.sub(r"\s+", " ", s)]: every run of whitespace becomes one space.
    [in_run] tells that the previous character was whitespace. *)
Fixpoint collapse_spaces (in_run : bool) (s : list ascii) : list ascii :=
  match s with
  | [] => []
  | c :: rest =>
      if Char.is_space c
      then (if in_run then [] else [" "%char]) ++ collapse_spaces true rest
      else c :: collapse_spaces false rest
  end.

Fixpoint lstrip (s : list ascii) : list ascii :=
  match s with
  | [] => []
  | c :: rest => if Char.is_space c then lstrip rest else s
  end.

(** [s.strip()] on a list of characters. *)
Definition strip_chars (s : list ascii) : list ascii :=
  rev (lstrip (rev (lstrip s))).

Definition str_strip (s : string) : string := text (strip_chars (chars s)).

(** [_strip_html(text)]: [re.sub(r"\s+", " ", text).strip()] *)
Definition _strip_html (s : string) : string :=
  text (strip_chars (collapse_spaces false (chars s))).

Definition newline : ascii := ascii_of_N 10.

(** [sep.join(parts)] *)
Fixpoint join (sep : list ascii) (parts : list (list ascii)) : list ascii :=
  match parts with
  | [] => []
  | [p] => p
  | p :: more => p ++ sep ++ join sep more
  end.

(** [soup.get_text("\n", strip=True)]: every text node stripped, the
    empty ones dropped, the others joined by one newline. *)
Definition get_text (nodes : list string) : string :=
  text (join [newline]
          (filter (fun n => n ≠ [])
             (map (fun n => strip_chars (chars n)) nodes))).

(** [s.split("\n\n")]: cut at each occurrence of two newlines, scanning
    left to right; [cur] is the piece being read, last character first. *)
Fixpoint split_blank_lines (cur : list ascii) (s : list ascii)
  : list (list ascii) :=
  match s with
  | [] => [rev cur]
  | c :: rest =>
      match rest with
      | c' :: rest' =>
          if Ascii.eqb c newline && Ascii.eqb c' newline
          then rev cur :: split_blank_lines [] rest'
          else split_blank_lines (c :: cur) rest
      | [] => [rev (c :: cur)]
      end
  end.

Definition str_split_blank_lines (s : string) : list string :=
  map text (split_blank_lines [] (chars s)).

(** [max(items, key=len)]: the first item of greatest length; [None]
    stands for the [ValueError] on an empty sequence. *)
Fixpoint max_by_len (items : list string) : option string :=
  match items with
  | [] => None
  | x :: rest =>
      match max_by_len rest with
      | Some y =>
          if (String.length x <? String.length y)%nat then Some y else Some x
      | None => Some x
      end
  end.

(** The tail of [fetch_job_description] in [job_apply_assistant.py], on
    the text nodes of the summary the boilerplate remover returns:
    [soup.find_all(string=True)] longer than 100 characters are the
    candidates. *)
Definition fallback_job_apply_assistant (nodes : list string) : string :=
  let candidates := filter (fun el => (100 < String.length el)%nat) nodes in
  match max_by_len candidates with
  | None => _strip_html (get_text nodes)
  | Some best => _strip_html best
  end.

(** The tail of [fetch_job_description] in [replit_app.py] (the same in
    [replit_job_apply_assistant.py] and [job_apply_gui_with_agents.py]),
    on the text nodes of the page. *)
Definition fallback_replit_app (nodes : list string) : string :=
  let text := get_text nodes in
  let paragraphs := str_split_blank_lines text in
  match max_by_len paragraphs with
  | Some largest_paragraph =>
      if (100 <? String.length largest_paragraph)%nat
      then _strip_html largest_paragraph
      else _strip_html text
  | None => _strip_html text
  end.

(** A page of paragraphs: one text node per paragraph. *)
Definition paragraph (n : nat) (c : ascii) : string := text (repeat c n).

(** ** The specification's reading of the scorer *)

(** The overall formula in exact rational arithmetic:
    [round(kc*0.4 + seniority*0.2 + numeric*0.1 + 100*0.3*has_any_overlap)]. *)
Definition spec_overall (kc seniority numeric has_any_overlap : Z) : Z :=
  Float64.round_half_even
    (inject_Z kc * (4 # 10) + inject_Z seniority * (2 # 10)
     + inject_Z numeric * (1 # 10)
     + 100 * (3 # 10) * inject_Z has_any_overlap)%Q.

(** 1 if the two token sets share a token, 0 otherwise. *)
Definition has_any_overlap (jd_tokens res_tokens : gset string) : Z :=
  if decide (jd_tokens ∩ res_tokens = ∅) then 0 else 1.

(** A years figure at the start of [t]: a run of digits, then
    whitespace, then the word [years]. *)
Definition years_figure_at (t : list ascii) : Prop :=
  ∃ ds ws post : list ascii,
    t = ds ++ ws ++ years ++ post
    ∧ ds ≠ [] ∧ Forall (fun c => Char.is_digit c = true) ds
    ∧ ws ≠ [] ∧ Forall (fun c => Char.is_space c = true) ws.

(** A text mentions a years figure: one stands somewhere in it, upper
    and lower case taken as the same. *)
Definition mentions_years (s : string) : Prop :=
  ∃ pre t : list ascii,
    chars (str_lower s) = pre ++ t ∧ years_figure_at t.

(** The job token set contains none of the ten seniority terms, or the
    résumé token set contains one of those that the job token set
    contains. *)
Definition seniority_aligned (jd_tokens res_tokens : gset string) : Prop :=
  (∀ s : string, s ∈ SENIORITY -> s ∉ jd_tokens)
  ∨ (∃ s : string, s ∈ SENIORITY ∧ s ∈ jd_tokens ∧ s ∈ res_tokens).

(** The code's total agrees with the exact formula, is the one integer
    nearest to the exact weighted sum, and lies between 0 and 100. *)
Definition total_agrees (ks sen num : Z) (b : bool) : bool :=
  let t := weighted_total ks sen num b in
  (t =? spec_overall ks sen num (bool_to_int b))
  && (Z.abs (10 * t - (4 * ks + 2 * sen + num + 300 * bool_to_int b)) <? 5)
  && (0 <=? t) && (t <=? 100).

(** The breakdown dictionary of the scorer. *)
Definition breakdown_of (keyword_score seniority_match numeric_match total : Z)
  : gmap string Z :=
  {[ "keyword_coverage"%string := keyword_score;
     "seniority"%string := seniority_match;
     "numeric"%string := numeric_match;
     "overall"%string := total ]}.

(** The locals of [compute_fit_score] past its guard, as functions of the
    two texts. *)
Definition overlap (jd_text resume_md : string) : gset string :=
  token_set jd_text ∩ token_set resume_md.

Definition keyword_score (jd_text resume_md : string) : Z :=
  keyword_score_of
    (Float64.RN (ratio (len (overlap jd_text resume_md))
                       (len (token_set jd_text)))).

Definition seniority_match (jd_text resume_md : string) : Z :=
  seniority_match_of (token_set jd_text) (token_set resume_md).

Definition total_score (jd_text resume_md : string) : Z :=
  weighted_total (keyword_score jd_text resume_md)
    (seniority_match jd_text resume_md)
    (numeric_match_of jd_text resume_md)
    (0 <? len (overlap jd_text resume_md)).

(** ** Shapes used in the tokenizer proofs *)

(** A match in progress starts with a letter. *)
Definition opens_with_letter (cur : option (list ascii)) : Prop :=
  match cur with
  | None => True
  | Some acc => ∃ c r, rev acc = c :: r ∧ Char.is_letter c = true
  end.

(** A reported match: a letter, then at least one more character. *)
Definition token_shaped (t : list ascii) : Prop :=
  ∃ c r, t = c :: r ∧ Char.is_letter c = true ∧ r ≠ [].


(** ** Inputs of the specification's scenarios *)

Definition scenario_jd : string :=
  "Senior Python Engineer. 5 years experience with Python and AWS required.".

Definition scenario_resume : string :=
  "Senior engineer with 6 years experience in Python and AWS.".

(** A page of three paragraphs, one text node each: 500 characters, then
    two short ones. *)
Definition three_paragraph_page : list string :=
  [paragraph 500 "x"; "short one"; "short two"]%string.

(** ** The same arithmetic on the machine's binary64 numbers

    Rocq's primitive floats are the processor's binary64 numbers.  The
    definitions below evaluate the scorer's two float expressions on
    them, to compare with the rounding [Float64.RN] on the rationals. *)

(** The rational a finite binary64 number stands for. *)
Definition float_to_Q (x : float) : option Q :=
  match Prim2SF x with
  | S754_zero _ => Some 0%Q
  | S754_finite s m e =>
      Some (Qred ((if s then -1 else 1) * inject_Z (Zpos m) * 2 ^ e))%Q
  | _ => None
  end.

Definition prim_of_int (n : Z) : float := PrimFloat.of_uint63 (Uint63.of_Z n).

#[local] Set Warnings "-inexact-float".

Definition prim_weighted_sum (keyword_score seniority_match numeric_match : Z)
    (any_overlap : bool) : float :=
  (prim_of_int keyword_score * 0.4 + prim_of_int seniority_match * 0.2
   + prim_of_int numeric_match * 0.1
   + 0.3 * prim_of_int 100 * prim_of_int (bool_to_int any_overlap))%float.

#[local] Set Warnings "+inexact-float".

(** [len(overlap) / len(jd_tokens) * 100] *)
Definition prim_coverage_percent (k n : Z) : float :=
  (prim_of_int k / prim_of_int n * prim_of_int 100)%float.

Definition same_number (x : option Q) (y : Q) : bool :=
  match x with
  | Some q => Qeq_bool q y
  | None => false
  end.

(** ** Whitespace-normalized text *)

(** Every whitespace character of [l] is the space character. *)
Definition only_blanks (l : list ascii) : Prop :=
  ∀ c : ascii, In c l -> Char.is_space c = true -> c = " "%char.

(** No two whitespace characters of [l] stand side by side. *)
Definition no_space_run (l : list ascii) : Prop :=
  ∀ (a b : list ascii) (c d : ascii),
    l = a ++ c :: d :: b ->
    Char.is_space c = true -> Char.is_space d = false.

(** [l] neither starts nor ends with whitespace. *)
Definition no_outer_space (l : list ascii) : Prop :=
  (∀ c r, l = c :: r -> Char.is_space c = false)
  ∧ (∀ c r, l = r ++ [c] -> Char.is_space c = false).

(** The characters of [l] that are not whitespace, in order. *)
Definition visible (l : list ascii) : list ascii :=
  List.filter (fun c => negb (Char.is_space c)) l.

(** A match in progress holds characters of the second class only. *)
Definition token_chars_only (l : list ascii) : Prop :=
  Forall (fun c => Char.is_token_char c = true) l.


(** ** Words of a text *)

(** A word: a letter, then one or more characters of the second class of
    the token pattern. *)
Definition is_word (w : list ascii) : bool :=
  match w with
  | c :: r => Char.is_letter c && negb (Nat.eqb (length r) 0)
              && forallb Char.is_token_char r
  | [] => false
  end.

(** What stands before a word: nothing, or a text whose last character is
    outside the second class. *)
Definition ends_outside (pre : list ascii) : bool :=
  match rev pre with
  | [] => true
  | c :: _ => negb (Char.is_token_char c)
  end.

(** What stands after a word: nothing, or a text whose first character is
    outside the second class. *)
Definition starts_outside (post : list ascii) : bool :=
  match post with
  | [] => true
  | c :: _ => negb (Char.is_token_char c)
  end.

(** ** [main]: the FitScore report

    After the files are written [main] prints the score, reading the four
    entries of the breakdown with [details[...]]; a missing key raises
    [KeyError], which the enclosing [except Exception] turns into the
    line [Error saving files: ...].  Printing is modelled as a state of
    printed lines threaded through the statements. *)

Inductive KeyError := KeyError_of (key : string).

Inductive line :=
| FitScore_header
| Overall (v : Z)
| Keyword_coverage (v : Z)
| Seniority_match (v : Z)
| Numeric_match (v : Z)
| Error_saving_files (e : KeyError)
| Unexpected_error (e : exn).

(** A statement: from the lines printed so far to the lines printed after
    it, with its value or the exception it raised. *)
Definition io (A : Type) : Type := list line -> list line * (KeyError + A).

#[global] Instance io_ret : MRet io := fun A a out => (out, inr a).

#[global] Instance io_bind : MBind io := fun A B k m out =>
  match m out with
  | (out', inr a) => k a out'
  | (out', inl e) => (out', inl e)
  end.

Definition print (l : line) : io unit := fun out => (out ++ [l], inr tt).

(** [details[key]] *)
Definition getitem (details : gmap string Z) (key : string) : io Z :=
  fun out =>
    match details !! key with
    | Some v => (out, inr v)
    | None => (out, inl (KeyError_of key))
    end.

(** [try: body  except Exception as e: handler(e)] *)
Definition try_except (body : io unit) (handler : KeyError -> io unit)
  : io unit :=
  fun out =>
    match body out with
    | (out', inr tt) => (out', inr tt)
    | (out', inl e) => handler e out'
    end.

Definition print_fit_score (details : gmap string Z) : io unit :=
  _ ← print FitScore_header;
  overall ← getitem details "overall";
  _ ← print (Overall overall);
  keyword_coverage ← getitem details "keyword_coverage";
  _ ← print (Keyword_coverage keyword_coverage);
  seniority ← getitem details "seniority";
  _ ← print (Seniority_match seniority);
  numeric ← getitem details "numeric";
  print (Numeric_match numeric).

(** The part of [main] from the scoring on, leaving out the writing of
    the files: the lines it prints. *)
Definition main_fit_score_report (job_text tailored_resume_md : string)
  : list line :=
  match compute_fit_score job_text tailored_resume_md with
  | Raise e => [Unexpected_error e]
  | Ok (score, details) =>
      fst (try_except (print_fit_score details)
             (fun e => print (Error_saving_files e)) [])
  end.

(** ["\n\n" in s]: two newlines in a row somewhere in [s]. *)
Fixpoint contains_blank_line (s : list ascii) : bool :=
  match s with
  | [] => false
  | c :: rest =>
      match rest with
      | c' :: _ =>
          (Ascii.eqb c newline && Ascii.eqb c' newline)
          || contains_blank_line rest
      | [] => false
      end
  end.

(** ** [clean_company_name] *)

(** The class [[\s\-_:;,|]] of the separator pattern. *)
Definition is_separator (c : ascii) : bool :=
  Char.is_space c
  || (Char.code c =? 45)%N    (* - *)
  || (Char.code c =? 95)%N    (* _ *)
  || (Char.code c =? 58)%N    (* : *)
  || (Char.code c =? 59)%N    (* ; *)
  || (Char.code c =? 44)%N    (* , *)
  || (Char.code c =? 124)%N.  (* | *)

(** The class [[a-zA-Z0-9_]]. *)
Definition is_name_char (c : ascii) : bool :=
  Char.is_letter c || Char.is_ascii_digit c || (Char.code c =? 95)%N.

(** [re.split(r'[\s\-_:;,|]+', s)]: the pieces between the maximal runs
    of separators, an empty piece before a leading run and after a
    trailing one; [cur] is the piece being read, last character first,
    [in_run] tells that the character before was a separator. *)
Fixpoint re_split_separators (cur : list ascii) (in_run : bool)
    (s : list ascii) : list (list ascii) :=
  match s with
  | [] => [rev cur]
  | c :: rest =>
      if is_separator c
      then if in_run
           then re_split_separators cur true rest
           else rev cur :: re_split_separators [] true rest
      else re_split_separators (c :: cur) false rest
  end.

Definition underscore : ascii := "_"%char.

Definition clean_company_name (company_name : string) : string :=
  let parts := re_split_separators [] false (chars company_name) in
  let clean_name :=
    match parts with
    | part0 :: more =>
        if (8 <=? length part0)%nat then part0
        else
          match more with
          | part1 :: _ =>
              if (length part0 + length part1 <? 15)%nat
              then part0 ++ underscore :: part1
              else part0
          | [] => part0
          end
    | [] => chars "Company"
    end in
  let clean_name := List.filter is_name_char clean_name in
  text (if (20 <? length clean_name)%nat
        then firstn 20 clean_name
        else clean_name).

(** The number of underscores of a text. *)
Definition underscores (l : list ascii) : nat :=
  length (List.filter (Ascii.eqb underscore) l).

(** A piece of a file name: characters of [[a-zA-Z0-9]] only. *)
Definition plain (l : list ascii) : Prop :=
  Forall (fun c => is_name_char c = true ∧ is_separator c = false) l.

(** ** A text inside a text *)

(** [sub in s] on two texts: [sub] stands somewhere in [s], character for
    character. *)
Fixpoint contains (sub s : list ascii) : bool :=
  starts_with sub s
  || match s with
     | [] => false
     | _ :: rest => contains sub rest
     end.

Definition contains_verbatim (s sub : string) : bool :=
  contains (chars sub) (chars s).

(** ** Sets as Python keeps them

    A Python [set] is a hash table.  Its elements have an iteration
    order, and for strings that order changes from one process to the
    next (hash randomization).  A [set_impl] is what one process does:
    the order in which [set(l)] and [a & b] lay out their elements.  A
    set is then the list of its elements in iteration order. *)
Record set_impl := Set_impl {
  set_new : list string -> list string;
  set_and : list string -> list string -> list string
}.

(** What every process guarantees: a set holds each element once,
    [set(l)] has the elements of [l], and [a & b] those of both. *)
Definition valid_impl (h : set_impl) : Prop :=
  (∀ l : list string,
     NoDup (set_new h l) ∧ ∀ x, x ∈ set_new h l <-> x ∈ l)
  ∧ (∀ a b : list string,
       NoDup a -> NoDup b ->
       NoDup (set_and h a b) ∧ ∀ x, x ∈ set_and h a b <-> x ∈ a ∧ x ∈ b).

(** The seniority heuristic on sets given as lists. *)
Definition seniority_match_on (jd_tokens res_tokens : list string) : Z :=
  let jd_sen := filter (fun s => s ∈ jd_tokens) SENIORITY in
  let res_sen := filter (fun s => s ∈ res_tokens) SENIORITY in
  if (truthy jd_sen && existsb (fun s => bool_decide (s ∈ res_sen)) jd_sen)
     || negb (truthy jd_sen)
  then 100 else 40.

(** [compute_fit_score(jd_text, resume_md)] once more, statement by
    statement, in a process whose sets are laid out by [h]: the code
    uses its sets through [not], [&], [len] and [in]. *)
Definition compute_fit_score_on (h : set_impl) (jd_text resume_md : string)
  : result (Z * gmap string Z) :=
  let jd_tokens := set_new h (_tokens jd_text) in
  let res_tokens := set_new h (_tokens resume_md) in
  if negb (truthy jd_tokens) then Ok (0, ∅)
  else
    let overlap := set_and h jd_tokens res_tokens in
    coverage ← int_truediv (Z.of_nat (length overlap))
                 (Z.of_nat (length jd_tokens));
    let keyword_score := keyword_score_of coverage in
    let seniority_match := seniority_match_on jd_tokens res_tokens in
    let numeric_match := numeric_match_of jd_text resume_md in
    let total :=
      weighted_total keyword_score seniority_match numeric_match
        (0 <? Z.of_nat (length overlap)) in
    let breakdown : gmap string Z :=
      {[ "keyword_coverage"%string := keyword_score;
         "seniority"%string := seniority_match;
         "numeric"%string := numeric_match;
         "overall"%string := total ]} in
    Ok (total, breakdown).

(** Two processes: one keeps the elements of a set in the order of their
    first insertion and builds [a & b] by going through [a]; the other
    keeps them in the opposite order and goes through [b]. *)
Definition insertion_order : set_impl :=
  Set_impl remove_dups (fun a b => filter (fun x => x ∈ b) a).

Definition reverse_order : set_impl :=
  Set_impl (fun l => reverse (remove_dups l))
           (fun a b => filter (fun x => x ∈ a) b).

(** ** The case of ASCII letters *)

(** A capital A-Z replaced by its small letter, every other character as
    it is. *)
Definition ascii_fold_char (c : ascii) : ascii :=
  if Char.is_upper c then ascii_of_N (Char.code c + 32) else c.

(** Two texts that differ at most in the case of the letters A-Z. *)
Definition same_up_to_ascii_case (s s' : string) : Prop :=
  map ascii_fold_char (chars s) = map ascii_fold_char (chars s').

(** * Properties *)

(** ** Binary64 rounding *)

Section Float64Facts.

Import Float64.
Local Open Scope Q_scope.


Lemma Qmake_bounds (a : Z) (b : positive) (m : Z) :
  (2 * m * Zpos b - Zpos b <= 2 * a <= 2 * m * Zpos b + Zpos b)%Z ->
  inject_Z m - (1 # 2) <= a # b /\ a # b <= inject_Z m + (1 # 2).
Proof.
  intros [H1 H2]. unfold Qle, Qminus, Qplus, Qopp, inject_Z; simpl. lia.
Qed.

Lemma round_half_even_spec (x : Q) :
  inject_Z (round_half_even x) - (1 # 2) <= x /\
  x <= inject_Z (round_half_even x) + (1 # 2).
Proof.
  unfold round_half_even.
  pose proof (Qred_correct x) as Hx. destruct (Qred x) as [a b]. simpl.
  rewrite <- Hx.
  pose proof (Z.div_mod a (Zpos b) ltac:(lia)) as Hdm.
  pose proof (Z.mod_pos_bound a (Zpos b) ltac:(lia)) as Hr.
  apply Qmake_bounds.
  destruct (Z.compare_spec (2 * (a mod Zpos b)) (Zpos b)) as [He | Hl | Hg].
  - destruct (Z.even (a / Zpos b)); nia.
  - nia.
  - nia.
Qed.

Lemma round_half_even_le (x : Q) (n : Z) :
  x <= inject_Z n -> (round_half_even x <= n)%Z.
Proof.
  intros H. destruct (round_half_even_spec x) as [H1 _].
  assert (Hq : inject_Z (round_half_even x) <= inject_Z n + (1 # 2)) by lra.
  revert Hq. generalize (round_half_even x). intros m.
  unfold Qle, Qplus, inject_Z; simpl. lia.
Qed.

Lemma round_half_even_ge (x : Q) (n : Z) :
  inject_Z n <= x -> (n <= round_half_even x)%Z.
Proof.
  intros H. destruct (round_half_even_spec x) as [_ H2].
  assert (Hq : inject_Z n <= inject_Z (round_half_even x) + (1 # 2)) by lra.
  revert Hq. generalize (round_half_even x). intros m.
  unfold Qle, Qplus, inject_Z; simpl. lia.
Qed.

Lemma round_half_even_int (n : Z) : round_half_even (inject_Z n) = n.
Proof.
  apply Z.le_antisymm.
  - apply round_half_even_le. lra.
  - apply round_half_even_ge. lra.
Qed.


Lemma pow2_pos (e : Z) : 0 < 2 ^ e.
Proof. apply Qpower_0_lt. lra. Qed.

Lemma pow2_succ (e : Z) : 2 ^ (e + 1) == 2 * 2 ^ e.
Proof. rewrite Qpower_plus by lra. simpl. ring. Qed.

Lemma pow2_add (a b : Z) : 2 ^ (a + b) == 2 ^ a * 2 ^ b.
Proof. apply Qpower_plus. lra. Qed.

Lemma pow2_inject (n : Z) : (0 <= n)%Z -> inject_Z (2 ^ n) == 2 ^ n.
Proof. intros H. rewrite Zpower_Qpower by exact H. reflexivity. Qed.

Lemma pow2_le (a b : Z) : (a <= b)%Z -> 2 ^ a <= 2 ^ b.
Proof. intros H. apply Qpower_le_compat_l; [exact H | lra]. Qed.

Lemma pow2_lt_inv (a b : Z) : 2 ^ a < 2 ^ b -> (a < b)%Z.
Proof.
  intros H. destruct (Z_lt_le_dec a b) as [Hlt | Hge]; [exact Hlt |].
  apply pow2_le in Hge. lra.
Qed.

Lemma inject_Z_lt_iff (a b : Z) : (a < b)%Z <-> inject_Z a < inject_Z b.
Proof. rewrite <- Zlt_Qlt. reflexivity. Qed.

Lemma inject_Z_le_iff (a b : Z) : (a <= b)%Z <-> inject_Z a <= inject_Z b.
Proof. rewrite <- Zle_Qle. reflexivity. Qed.

Lemma ilog2_spec (x : Q) :
  0 < x -> 2 ^ ilog2 x <= x /\ x < 2 ^ (ilog2 x + 1).
Proof.
  intros Hx. unfold ilog2.
  destruct x as [p q]. cbn [Qnum Qden].
  assert (Hp : (0 < p)%Z) by (unfold Qlt in Hx; simpl in Hx; lia).
  set (a := Z.log2 p). set (b := Z.log2 (Zpos q)).
  destruct (Z.log2_spec p Hp) as [Ha1 Ha2].
  destruct (Z.log2_spec (Zpos q) ltac:(lia)) as [Hb1 Hb2].
  fold a in Ha1, Ha2. fold b in Hb1, Hb2.
  assert (Ha0 : (0 <= a)%Z) by apply Z.log2_nonneg.
  assert (Hb0 : (0 <= b)%Z) by apply Z.log2_nonneg.
  apply inject_Z_le_iff in Ha1, Hb1. apply inject_Z_lt_iff in Ha2, Hb2.
  rewrite pow2_inject in Ha1, Hb1 by lia.
  rewrite pow2_inject in Ha2, Hb2 by lia.
  replace (Z.succ a) with (a + 1)%Z in Ha2 by lia.
  replace (Z.succ b) with (b + 1)%Z in Hb2 by lia.
  rewrite pow2_succ in Ha2, Hb2.
  assert (Hab : 2 ^ a == 2 ^ (a - b) * 2 ^ b).
  { rewrite <- pow2_add. replace (a - b + b)%Z with a by lia. reflexivity. }
  pose proof (pow2_pos (a - b)) as HT. pose proof (pow2_pos b) as HB.
  assert (Hxq : (p # q) * inject_Z (Zpos q) == inject_Z p).
  { unfold Qeq, Qmult, inject_Z; simpl. lia. }
  assert (Hq0 : 0 < inject_Z (Zpos q)).
  { unfold Qlt, inject_Z; simpl. lia. }
  destruct (Qle_bool (2 ^ (a - b)) (p # q)) eqn:Hc;
    [ apply Qle_bool_iff in Hc
    | assert (Hlt : p # q < 2 ^ (a - b))
        by (apply Qnot_le_lt; intros Hle; apply Qle_bool_iff in Hle; congruence);
      clear Hc; replace (a - b - 1 + 1)%Z with (a - b)%Z by lia ].
  all: assert (HT2 : 2 ^ (a - b) == 2 * 2 ^ (a - b - 1))
    by (rewrite <- pow2_succ; replace (a - b - 1 + 1)%Z with (a - b)%Z by lia;
        reflexivity).
  all: pose proof (pow2_succ (a - b)) as HT3.
  all: set (X := p # q) in *; set (P := inject_Z p) in *;
    set (D := inject_Z (Zpos q)) in *;
    set (T := 2 ^ (a - b)) in *; set (B := 2 ^ b) in *; set (A := 2 ^ a) in *;
    set (T2 := 2 ^ (a - b + 1)) in *; set (Tm := 2 ^ (a - b - 1)) in *;
    clearbody X P D T B A T2 Tm.
  all: assert (Hup : X < 2 * T)
    by (apply Qnot_le_lt; intros Hc';
        assert (2 * T * D <= X * D) by (apply Qmult_le_compat_r; lra);
        assert (2 * T * B <= 2 * T * D)
          by (rewrite !(Qmult_comm (2 * T)); apply Qmult_le_compat_r; lra);
        lra).
  all: assert (Hlo : T < 2 * X)
    by (apply Qnot_le_lt; intros Hc';
        assert (2 * X * D <= T * D) by (apply Qmult_le_compat_r; lra);
        assert (T * D < T * (2 * B))
          by (rewrite !(Qmult_comm T); apply Qmult_lt_compat_r; lra);
        lra).
  all: lra.
Qed.


Lemma round_half_even_compat (x y : Q) :
  x == y -> round_half_even x = round_half_even y.
Proof.
  intros H. unfold round_half_even. rewrite (Qred_complete _ _ H). reflexivity.
Qed.

Lemma RN_compat (x y : Q) : x == y -> RN x = RN y.
Proof. intros H. unfold RN. rewrite (Qred_complete _ _ H). reflexivity. Qed.

Lemma RN_zero (x : Q) : x == 0 -> RN x = 0.
Proof. intros H. rewrite (RN_compat _ _ H). reflexivity. Qed.

(** The binade of a positive number. *)
Lemma binade_spec (x : Q) :
  0 < x ->
  let E := ilog2 (Qabs (Qred x)) in 2 ^ E <= x /\ x < 2 ^ (E + 1).
Proof.
  intros Hx E.
  assert (Hy : Qabs (Qred x) == x).
  { rewrite Qabs_pos; [apply Qred_correct |]. rewrite Qred_correct. lra. }
  destruct (ilog2_spec (Qabs (Qred x))) as [H1 H2]; [rewrite Hy; exact Hx |].
  fold E in H1, H2. rewrite Hy in H1, H2. split; assumption.
Qed.

Lemma RN_value (x : Q) :
  ~ x == 0 ->
  let e := ulp_exp (Qred x) in
  RN x == inject_Z (round_half_even (x / 2 ^ e)) * 2 ^ e.
Proof.
  intros Hx e. unfold RN.
  destruct (Qeq_bool (Qred x) 0) eqn:Hz.
  - apply Qeq_bool_iff in Hz. rewrite Qred_correct in Hz. contradiction.
  - fold e. rewrite Qred_correct.
    rewrite (round_half_even_compat (Qred x / 2 ^ e) (x / 2 ^ e));
      [reflexivity |].
    rewrite Qred_correct. reflexivity.
Qed.

Lemma ulp_exp_red (x : Q) : ulp_exp (Qred x) = Z.max (ilog2 (Qabs (Qred x)) - 52) (-1074).
Proof. reflexivity. Qed.

Lemma RN_nonneg (x : Q) : 0 <= x -> 0 <= RN x.
Proof.
  intros Hx. destruct (Qeq_dec x 0) as [Hz | Hnz].
  - rewrite (RN_zero _ Hz). lra.
  - rewrite (RN_value _ Hnz).
    set (e := ulp_exp (Qred x)). pose proof (pow2_pos e) as He.
    apply Qmult_le_0_compat; [| lra].
    rewrite <- Zle_Qle with (x := 0%Z). apply round_half_even_ge.
    change (inject_Z 0) with 0.
    apply Qle_shift_div_l; [exact He | lra].
Qed.

(** Rounding never crosses an integer below 2^53: those are binary64
    numbers themselves. *)
Lemma RN_le_int (x : Q) (F : Z) :
  0 <= x -> x <= inject_Z F -> (F < 2 ^ 53)%Z -> RN x <= inject_Z F.
Proof.
  intros Hx HF Hbig. destruct (Qeq_dec x 0) as [Hz | Hnz].
  - rewrite (RN_zero _ Hz). lra.
  - assert (Hpos : 0 < x) by (destruct (Qlt_le_dec 0 x) as [|Hle]; [assumption |];
      exfalso; apply Hnz; lra).
    rewrite (RN_value _ Hnz). rewrite ulp_exp_red.
    destruct (binade_spec x Hpos) as [HE1 HE2].
    set (E := ilog2 (Qabs (Qred x))) in *.
    assert (HE : (E < 53)%Z).
    { apply pow2_lt_inv. apply Qle_lt_trans with (y := inject_Z F); [lra |].
      rewrite <- pow2_inject by lia. rewrite <- Zlt_Qlt. exact Hbig. }
    set (e := Z.max (E - 52) (-1074)).
    assert (He : (e <= 0)%Z) by lia.
    assert (Hinv : 2 ^ e * 2 ^ (- e) == 1).
    { rewrite <- pow2_add. replace (e + - e)%Z with 0%Z by lia. reflexivity. }
    pose proof (pow2_pos e) as Hp. pose proof (pow2_pos (- e)) as Hp'.
    assert (Hdiv : x / 2 ^ e == x * 2 ^ (- e)).
    { unfold Qdiv. rewrite Qpower_opp. reflexivity. }
    assert (Hr : (round_half_even (x / 2 ^ e) <= F * 2 ^ (- e))%Z).
    { apply round_half_even_le. rewrite Hdiv. rewrite inject_Z_mult.
      rewrite pow2_inject by lia. apply Qmult_le_compat_r; lra. }
    apply inject_Z_le_iff in Hr. rewrite inject_Z_mult in Hr.
    rewrite pow2_inject in Hr by lia.
    assert (inject_Z (round_half_even (x / 2 ^ e)) * 2 ^ e
            <= inject_Z F * 2 ^ (- e) * 2 ^ e)
      by (apply Qmult_le_compat_r; lra).
    assert (inject_Z F * 2 ^ (- e) * 2 ^ e == inject_Z F).
    { rewrite <- Qmult_assoc. rewrite (Qmult_comm (2 ^ (- e))). rewrite Hinv. ring. }
    lra.
Qed.


Lemma eps_pow2 : 2 ^ (-53) == eps.
Proof. reflexivity. Qed.

Lemma RN_error (x : Q) :
  2 ^ (-1022) <= x ->
  RN x - x <= x * eps /\ x - RN x <= x * eps.
Proof.
  intros Hx. pose proof (pow2_pos (-1022)) as Hmin.
  assert (Hpos : 0 < x) by lra.
  assert (Hnz : ~ x == 0) by (intros Hz; rewrite Hz in Hpos; lra).
  rewrite (RN_value _ Hnz). rewrite ulp_exp_red.
  destruct (binade_spec x Hpos) as [HE1 HE2].
  set (E := ilog2 (Qabs (Qred x))) in *.
  assert (HE : (-1022 < E + 1)%Z).
  { apply pow2_lt_inv. lra. }
  replace (Z.max (E - 52) (-1074)) with (E + -53 + 1)%Z by lia.
  destruct (round_half_even_spec (x / 2 ^ (E + -53 + 1))) as [Hm1 Hm2].
  set (m := inject_Z (round_half_even (x / 2 ^ (E + -53 + 1)))) in *.
  assert (HU : 2 ^ (E + -53 + 1) == 2 * (2 ^ E * eps)).
  { rewrite pow2_succ, pow2_add, eps_pow2. reflexivity. }
  pose proof (pow2_pos (E + -53 + 1)) as HUpos.
  assert (Hy : x / 2 ^ (E + -53 + 1) * 2 ^ (E + -53 + 1) == x).
  { field. lra. }
  assert (HEe : 2 ^ E * eps <= x * eps).
  { apply Qmult_le_compat_r; [exact HE1 | unfold eps; lra]. }
  set (U := 2 ^ (E + -53 + 1)) in *. set (y := x / U) in *.
  set (T := 2 ^ E) in *.
  assert (H1 : (m - (1 # 2)) * U <= y * U) by (apply Qmult_le_compat_r; lra).
  assert (H2 : y * U <= (m + (1 # 2)) * U) by (apply Qmult_le_compat_r; lra).
  clearbody U y T m. clear Hmin Hx HE2 HE1.
  split; lra.
Qed.


Lemma ratio_bounds (k n : Z) :
  (0 <= k <= n)%Z -> (0 < n)%Z -> 0 <= ratio k n /\ ratio k n <= 1.
Proof.
  intros Hk Hn. unfold ratio.
  assert (HN : 0 < inject_Z n) by (rewrite <- Zlt_Qlt with (x := 0%Z); lia).
  assert (HK : 0 <= inject_Z k) by (rewrite <- Zle_Qle with (x := 0%Z); lia).
  assert (HKN : inject_Z k <= inject_Z n) by (rewrite <- Zle_Qle; lia).
  split.
  - apply Qle_shift_div_l; [exact HN | lra].
  - apply Qle_shift_div_r; [exact HN | lra].
Qed.

Lemma of_int_100 : of_int 100 = 100.
Proof. reflexivity. Qed.

Lemma keyword_score_range (k n : Z) :
  (0 <= k <= n)%Z -> (0 < n)%Z ->
  (0 <= keyword_score_of (RN (ratio k n)) <= 100)%Z.
Proof.
  intros Hk Hn. destruct (ratio_bounds k n Hk Hn) as [Hq0 Hq1].
  unfold keyword_score_of, py_round, fmul. rewrite of_int_100.
  pose proof (RN_nonneg _ Hq0) as Hc0.
  pose proof (RN_le_int _ 1 Hq0 Hq1 ltac:(reflexivity)) as Hc1.
  change (inject_Z 1) with 1 in Hc1.
  set (c := RN (ratio k n)) in *.
  assert (Hy0 : 0 <= c * 100) by lra.
  assert (Hy1 : c * 100 <= inject_Z 100) by (change (inject_Z 100) with 100; lra).
  pose proof (RN_nonneg _ Hy0) as Hp0.
  pose proof (RN_le_int _ 100 Hy0 Hy1 ltac:(reflexivity)) as Hp1.
  split.
  - apply round_half_even_ge. exact Hp0.
  - apply round_half_even_le. exact Hp1.
Qed.

Lemma keyword_score_full (n : Z) :
  (0 < n)%Z -> keyword_score_of (RN (ratio n n)) = 100%Z.
Proof.
  intros Hn.
  assert (H1 : ratio n n == 1).
  { unfold ratio. field. intros Hz.
    assert (inject_Z 0 < inject_Z n) by (rewrite <- Zlt_Qlt; lia).
    change (inject_Z 0) with 0 in *. lra. }
  rewrite (RN_compat _ _ H1). reflexivity.
Qed.

Lemma keyword_score_none (n : Z) :
  keyword_score_of (RN (ratio 0 n)) = 0%Z.
Proof.
  assert (H0 : ratio 0 n == 0) by (unfold ratio, Qdiv; ring).
  rewrite (RN_compat _ _ H0). reflexivity.
Qed.

(** Below 2^44 the two roundings of the quotient and of the product
    cannot move the value across a half-integer it was not on: the score
    is a nearest integer to the exact percentage [100 k / n]. *)
Lemma keyword_score_nearest (k n : Z) :
  (0 <= k <= n)%Z -> (0 < n < 2 ^ 44)%Z ->
  (Z.abs (2 * n * keyword_score_of (RN (ratio k n)) - 200 * k) <= n)%Z.
Proof.
  intros Hk Hn.
  destruct (Z.eq_dec k 0%Z) as [-> | Hk0].
  { rewrite keyword_score_none. lia. }
  destruct (ratio_bounds k n Hk ltac:(lia)) as [Hq0 Hq1].
  assert (HN : 1 <= inject_Z n)
    by (rewrite <- Zle_Qle with (x := 1%Z); lia).
  assert (HN' : inject_Z n < 17592186044416)
    by (change 17592186044416 with (inject_Z (2 ^ 44));
        rewrite <- Zlt_Qlt; lia).
  assert (HK : 1 <= inject_Z k)
    by (rewrite <- Zle_Qle with (x := 1%Z); lia).
  assert (HqN : ratio k n * inject_Z n == inject_Z k)
    by (unfold ratio; field; lra).
  set (q := ratio k n) in *. set (N := inject_Z n) in *.
  set (K := inject_Z k) in *.
  assert (Hqlo : (1 # 17592186044416) <= q).
  { destruct (Qlt_le_dec q (1 # 17592186044416)) as [Hlt | Hle]; [| exact Hle].
    assert (q * N <= (1 # 17592186044416) * N)
      by (apply Qmult_le_compat_r; lra).
    lra. }
  assert (Hmin : 2 ^ (-1022) <= (1 # 35184372088832)).
  { apply Qle_trans with (y := 2 ^ (-45)); [apply pow2_le; lia |].
    apply Qle_lteq. right. reflexivity. }
  destruct (RN_error q ltac:(lra)) as [Hc1 Hc2].
  unfold keyword_score_of, py_round, fmul. rewrite of_int_100.
  set (c := RN q) in *.
  assert (Hclo : (1 # 35184372088832) <= c * 100) by (unfold eps in *; lra).
  destruct (RN_error (c * 100) ltac:(lra)) as [Hp1 Hp2].
  destruct (round_half_even_spec (RN (c * 100))) as [Hs1 Hs2].
  set (p := RN (c * 100)) in *.
  set (s := round_half_even p) in *.
  assert (Hup : (inject_Z s - 100 * q - (1 # 2)) * N
                 <= (1 # 35184372088832) * N).
  { apply Qmult_le_compat_r; [unfold eps in *; lra | lra]. }
  assert (Hdn : (100 * q - inject_Z s - (1 # 2)) * N
                 <= (1 # 35184372088832) * N).
  { apply Qmult_le_compat_r; [unfold eps in *; lra | lra]. }
  assert (Hlt1 : inject_Z (2 * n * s - 200 * k) < inject_Z (n + 1)).
  { unfold Z.sub. rewrite !inject_Z_plus, inject_Z_opp, !inject_Z_mult.
    fold N K. change (inject_Z 2) with 2. change (inject_Z 200) with 200.
    change (inject_Z 1) with 1. lra. }
  assert (Hlt2 : inject_Z (200 * k - 2 * n * s) < inject_Z (n + 1)).
  { unfold Z.sub. rewrite !inject_Z_plus, inject_Z_opp, !inject_Z_mult.
    fold N K. change (inject_Z 2) with 2. change (inject_Z 200) with 200.
    change (inject_Z 1) with 1. lra. }
  rewrite <- Zlt_Qlt in Hlt1, Hlt2. lia.
Qed.

End Float64Facts.

(** ** Agreement with the machine's binary64 arithmetic *)

(** On every combination of sub-scores the weighted sum computed with
    [Float64.RN] is the number the processor computes. *)
Lemma weighted_sum_matches_machine :
  forallb (fun ks =>
    forallb (fun sen =>
      forallb (fun num =>
        forallb (fun b =>
          same_number (float_to_Q (prim_weighted_sum (Z.of_nat ks) sen num b))
            (weighted_sum (Z.of_nat ks) sen num b))
          [false; true])
        [30; 80; 100])
      [40; 100])
    (seq 0 101) = true.
Proof. vm_compute. reflexivity. Qed.

(** So is the coverage percentage before [round], for every overlap of
    [k] among [n] job tokens up to 40 tokens. *)
Lemma coverage_percent_matches_machine :
  forallb (fun n =>
    forallb (fun k =>
      same_number
        (float_to_Q (prim_coverage_percent (Z.of_nat k) (Z.of_nat n)))
        (Float64.fmul (Float64.RN (ratio (Z.of_nat k) (Z.of_nat n)))
           (Float64.of_int 100)))
      (seq 0 (S n)))
    (seq 1 40) = true.
Proof. vm_compute. reflexivity. Qed.

(** ** The weighted total on its finite domain *)

Lemma total_table_checked :
  forallb (fun ks =>
    forallb (fun sen =>
      forallb (fun num =>
        forallb (fun b => total_agrees (Z.of_nat ks) sen num b)
          [false; true])
        [30; 80; 100])
      [40; 100])
    (seq 0 101) = true.
Proof. vm_compute. reflexivity. Qed.

Lemma weighted_total_agrees (ks sen num : Z) (b : bool) :
  0 <= ks <= 100 -> sen = 40 \/ sen = 100 ->
  num = 30 \/ num = 80 \/ num = 100 ->
  total_agrees ks sen num b = true.
Proof.
  intros Hks Hsen Hnum.
  pose proof total_table_checked as H.
  rewrite forallb_forall in H.
  specialize (H (Z.to_nat ks)).
  rewrite Z2Nat.id in H by lia.
  assert (Hin : In (Z.to_nat ks) (seq 0 101)) by (apply in_seq; lia).
  specialize (H Hin).
  rewrite forallb_forall in H. specialize (H sen).
  assert (Hs : In sen [40; 100]) by (simpl; lia).
  specialize (H Hs).
  rewrite forallb_forall in H. specialize (H num).
  assert (Hn : In num [30; 80; 100]) by (simpl; lia).
  specialize (H Hn).
  rewrite forallb_forall in H. apply H.
  destruct b; simpl; auto.
Qed.

(** ** The scorer, step by step *)

Lemma breakdown_lookup (a b c d : Z) :
  breakdown_of a b c d !! "keyword_coverage"%string = Some a
  ∧ breakdown_of a b c d !! "seniority"%string = Some b
  ∧ breakdown_of a b c d !! "numeric"%string = Some c
  ∧ breakdown_of a b c d !! "overall"%string = Some d.
Proof. repeat split; reflexivity. Qed.

Lemma len_nonneg (s : gset string) : 0 <= len s.
Proof. unfold len. lia. Qed.

Lemma len_pos (s : gset string) : s ≠ ∅ -> 0 < len s.
Proof.
  intros Hne. unfold len.
  assert (Hsz : size s ≠ 0%nat).
  { intros Hz. apply Hne. apply leibniz_equiv. by apply size_empty_inv. }
  lia.
Qed.

Lemma len_overlap_le (a b : gset string) : len (a ∩ b) <= len a.
Proof.
  unfold len. apply inj_le. apply subseteq_size. set_solver.
Qed.

Lemma len_overlap_full (a b : gset string) : a ⊆ b -> len (a ∩ b) = len a.
Proof.
  intros Hsub. replace (a ∩ b) with a by set_solver. reflexivity.
Qed.

Lemma len_zero_iff (s : gset string) : len s = 0 <-> s = ∅.
Proof.
  unfold len. split.
  - intros Hz. apply leibniz_equiv. apply size_empty_inv. lia.
  - intros ->. reflexivity.
Qed.

Lemma token_set_nonempty (s : string) : _tokens s ≠ [] -> token_set s ≠ ∅.
Proof.
  unfold token_set. destruct (_tokens s) as [| t l]; [congruence |].
  intros _ He. assert (Hin : t ∈ (list_to_set (t :: l) : gset string)).
  { apply elem_of_list_to_set. left. }
  rewrite He in Hin. by apply not_elem_of_empty in Hin.
Qed.

Lemma token_set_empty (s : string) : _tokens s = [] -> token_set s = ∅.
Proof. unfold token_set. intros ->. reflexivity. Qed.

Lemma compute_fit_score_empty (jd_text resume_md : string) :
  token_set jd_text = ∅ -> compute_fit_score jd_text resume_md = Ok (0, ∅).
Proof.
  intros H. unfold compute_fit_score. rewrite bool_decide_eq_true_2; done.
Qed.

Lemma compute_fit_score_nonempty (jd_text resume_md : string) :
  token_set jd_text ≠ ∅ ->
  compute_fit_score jd_text resume_md
  = Ok (total_score jd_text resume_md,
        breakdown_of (keyword_score jd_text resume_md)
          (seniority_match jd_text resume_md)
          (numeric_match_of jd_text resume_md)
          (total_score jd_text resume_md)).
Proof.
  intros Hne. unfold compute_fit_score.
  rewrite bool_decide_eq_false_2 by exact Hne.
  unfold int_truediv. pose proof (len_pos _ Hne) as Hpos.
  destruct (Z.eqb_spec (len (token_set jd_text)) 0) as [Hz | _]; [lia |].
  unfold total_score, keyword_score, seniority_match, overlap, breakdown_of.
  unfold mbind, result_bind. reflexivity.
Qed.

Lemma seniority_match_values (jd_text resume_md : string) :
  seniority_match jd_text resume_md = 40
  \/ seniority_match jd_text resume_md = 100.
Proof.
  unfold seniority_match, seniority_match_of.
  destruct (_ || _); [right | left]; reflexivity.
Qed.

Lemma numeric_match_values (jd_text resume_md : string) :
  numeric_match_of jd_text resume_md = 30
  \/ numeric_match_of jd_text resume_md = 80
  \/ numeric_match_of jd_text resume_md = 100.
Proof.
  unfold numeric_match_of.
  destruct (negb _); [right; right; reflexivity |].
  destruct (truthy _); [right; left | left]; reflexivity.
Qed.

Lemma overlap_flag (jd_text resume_md : string) :
  bool_to_int (0 <? len (overlap jd_text resume_md))
  = has_any_overlap (token_set jd_text) (token_set resume_md).
Proof.
  unfold has_any_overlap, overlap.
  destruct (decide (token_set jd_text ∩ token_set resume_md = ∅))
    as [He | Hne].
  - rewrite He. reflexivity.
  - pose proof (len_pos _ Hne) as Hpos.
    destruct (Z.ltb_spec 0 (len (token_set jd_text ∩ token_set resume_md)));
      [reflexivity | lia].
Qed.

Lemma keyword_score_in_range (jd_text resume_md : string) :
  token_set jd_text ≠ ∅ -> 0 <= keyword_score jd_text resume_md <= 100.
Proof.
  intros Hne. apply keyword_score_range.
  - split; [apply len_nonneg | apply len_overlap_le].
  - apply len_pos, Hne.
Qed.

Lemma keyword_score_eq (jd_text resume_md : string) :
  keyword_score jd_text resume_md
  = py_round
      (Float64.fmul
         (Float64.RN
            (ratio (Z.of_nat (size (token_set jd_text ∩ token_set resume_md)))
                   (Z.of_nat (size (token_set jd_text)))))
         (Float64.of_int 100)).
Proof. unfold keyword_score, keyword_score_of, overlap, len. reflexivity. Qed.

Lemma keyword_score_is_nearest (jd_text resume_md : string) :
  token_set jd_text ≠ ∅ ->
  len (token_set jd_text) < 2 ^ 44 ->
  Z.abs (2 * len (token_set jd_text) * keyword_score jd_text resume_md
         - 200 * len (overlap jd_text resume_md))
  <= len (token_set jd_text).
Proof.
  intros Hne Hsmall. apply keyword_score_nearest.
  - split; [apply len_nonneg | apply len_overlap_le].
  - split; [apply len_pos, Hne | exact Hsmall].
Qed.

Lemma keyword_score_full_overlap (jd_text resume_md : string) :
  token_set jd_text ≠ ∅ ->
  token_set jd_text ⊆ token_set resume_md ->
  keyword_score jd_text resume_md = 100.
Proof.
  intros Hne Hsub. unfold keyword_score, overlap.
  rewrite len_overlap_full by exact Hsub.
  apply keyword_score_full. apply len_pos, Hne.
Qed.

(** The arithmetic is used through the lemmas above from here on. *)
Opaque weighted_total spec_overall keyword_score_of.

Lemma total_score_agrees (jd_text resume_md : string) :
  token_set jd_text ≠ ∅ ->
  total_score jd_text resume_md
  = spec_overall (keyword_score jd_text resume_md)
      (seniority_match jd_text resume_md)
      (numeric_match_of jd_text resume_md)
      (has_any_overlap (token_set jd_text) (token_set resume_md))
  ∧ Z.abs (10 * total_score jd_text resume_md
           - (4 * keyword_score jd_text resume_md
              + 2 * seniority_match jd_text resume_md
              + numeric_match_of jd_text resume_md
              + 300 * has_any_overlap (token_set jd_text)
                        (token_set resume_md))) < 5
  ∧ 0 <= total_score jd_text resume_md <= 100.
Proof.
  intros Hne.
  pose proof (weighted_total_agrees _ _ _
    (0 <? len (overlap jd_text resume_md))
    (keyword_score_in_range jd_text resume_md Hne)
    (seniority_match_values jd_text resume_md)
    (numeric_match_values jd_text resume_md)) as Hok.
  unfold total_agrees in Hok.
  apply andb_prop in Hok as [Hok Hhi]. apply andb_prop in Hok as [Hok Hlo].
  apply andb_prop in Hok as [Heq Hnear].
  apply Z.eqb_eq in Heq. apply Z.ltb_lt in Hnear.
  apply Z.leb_le in Hhi, Hlo.
  rewrite <- overlap_flag. unfold total_score.
  split; [exact Heq |]. split; [exact Hnear |]. split; [exact Hlo | exact Hhi].
Qed.

(** ** The claims about the scorer *)

(** C1.  Whenever the job token set is non-empty, the overall score is
    the specification's formula
    [round(keyword_coverage*0.4 + seniority*0.2 + numeric*0.1
           + 100*0.3*has_any_overlap)]
    evaluated exactly on the three sub-scores of the breakdown; the
    binary64 arithmetic of the code never moves the result, which is the
    one integer nearest to the exact weighted sum. *)
Theorem C1_overall_is_weighted_formula (jd_text resume_md : string) :
  token_set jd_text ≠ ∅ ->
  ∃ (total : Z) (breakdown : gmap string Z) (kc sen num : Z),
    compute_fit_score jd_text resume_md = Ok (total, breakdown)
    ∧ breakdown !! "keyword_coverage"%string = Some kc
    ∧ breakdown !! "seniority"%string = Some sen
    ∧ breakdown !! "numeric"%string = Some num
    ∧ breakdown !! "overall"%string = Some total
    ∧ total
      = spec_overall kc sen num
          (has_any_overlap (token_set jd_text) (token_set resume_md))
    ∧ Z.abs (10 * total
             - (4 * kc + 2 * sen + num
                + 300 * has_any_overlap (token_set jd_text)
                          (token_set resume_md))) < 5.
Proof.
  intros Hne.
  destruct (total_score_agrees _ resume_md Hne) as (Heq & Hnear & _).
  destruct (breakdown_lookup (keyword_score jd_text resume_md)
    (seniority_match jd_text resume_md) (numeric_match_of jd_text resume_md)
    (total_score jd_text resume_md)) as (H1 & H2 & H3 & H4).
  exists (total_score jd_text resume_md),
    (breakdown_of (keyword_score jd_text resume_md)
       (seniority_match jd_text resume_md)
       (numeric_match_of jd_text resume_md)
       (total_score jd_text resume_md)),
    (keyword_score jd_text resume_md), (seniority_match jd_text resume_md),
    (numeric_match_of jd_text resume_md).
  split; [apply compute_fit_score_nonempty, Hne |].
  split; [exact H1 |]. split; [exact H2 |]. split; [exact H3 |].
  split; [exact H4 |]. split; [exact Heq | exact Hnear].
Qed.

(** C7.  On every pair of texts the scorer returns, and its overall
    score is an integer between 0 and 100. *)
Theorem C7_overall_between_0_and_100 (jd_text resume_md : string) :
  ∃ (total : Z) (breakdown : gmap string Z),
    compute_fit_score jd_text resume_md = Ok (total, breakdown)
    ∧ 0 <= total <= 100.
Proof.
  destruct (decide (token_set jd_text = ∅)) as [He | Hne].
  - exists 0, ∅. split; [by apply compute_fit_score_empty | lia].
  - destruct (total_score_agrees _ resume_md Hne) as (_ & _ & Hrange).
    eexists _, _. split; [apply compute_fit_score_nonempty, Hne | exact Hrange].
Qed.

Lemma C1_overall_is_weighted_formula_witness :
  ∃ (total : Z) (breakdown : gmap string Z) (kc sen num : Z),
    compute_fit_score "Senior Engineer role" "Junior Developer"
    = Ok (total, breakdown)
    ∧ breakdown !! "keyword_coverage"%string = Some kc
    ∧ breakdown !! "seniority"%string = Some sen
    ∧ breakdown !! "numeric"%string = Some num
    ∧ breakdown !! "overall"%string = Some total
    ∧ total
      = spec_overall kc sen num
          (has_any_overlap (token_set "Senior Engineer role")
             (token_set "Junior Developer"))
    ∧ Z.abs (10 * total
             - (4 * kc + 2 * sen + num
                + 300 * has_any_overlap (token_set "Senior Engineer role")
                          (token_set "Junior Developer"))) < 5.
Proof.
  apply (C1_overall_is_weighted_formula "Senior Engineer role"
           "Junior Developer").
  apply token_set_nonempty. vm_compute. discriminate.
Defined.

(** C3.  Whenever the job token set is non-empty, the keyword coverage
    is the size of the intersection of the two token sets divided by the
    size of the job token set, times 100, rounded: computed in binary64
    as the code does, it lies between 0 and 100, it is an integer nearest
    to the exact percentage for every job token set of fewer than 2^44
    tokens, and it is 100 when every job token is a résumé token. *)
Theorem C3_keyword_coverage (jd_text resume_md : string) :
  token_set jd_text ≠ ∅ ->
  ∃ (total : Z) (breakdown : gmap string Z) (kc : Z),
    compute_fit_score jd_text resume_md = Ok (total, breakdown)
    ∧ breakdown !! "keyword_coverage"%string = Some kc
    ∧ kc = py_round
             (Float64.fmul
                (Float64.RN
                   (ratio
                      (Z.of_nat
                         (size (token_set jd_text ∩ token_set resume_md)))
                      (Z.of_nat (size (token_set jd_text)))))
                (Float64.of_int 100))
    ∧ 0 <= kc <= 100
    ∧ (Z.of_nat (size (token_set jd_text)) < 2 ^ 44 ->
       Z.abs (2 * Z.of_nat (size (token_set jd_text)) * kc
              - 200 * Z.of_nat
                        (size (token_set jd_text ∩ token_set resume_md)))
       <= Z.of_nat (size (token_set jd_text)))
    ∧ (token_set jd_text ⊆ token_set resume_md -> kc = 100).
Proof.
  intros Hne.
  destruct (breakdown_lookup (keyword_score jd_text resume_md)
    (seniority_match jd_text resume_md) (numeric_match_of jd_text resume_md)
    (total_score jd_text resume_md)) as (H1 & _).
  exists (total_score jd_text resume_md),
    (breakdown_of (keyword_score jd_text resume_md)
       (seniority_match jd_text resume_md)
       (numeric_match_of jd_text resume_md)
       (total_score jd_text resume_md)),
    (keyword_score jd_text resume_md).
  split; [apply compute_fit_score_nonempty, Hne |].
  split; [exact H1 |].
  split; [apply keyword_score_eq |].
  split; [apply keyword_score_in_range, Hne |].
  split.
  - intros Hsmall. apply (keyword_score_is_nearest jd_text resume_md Hne Hsmall).
  - intros Hsub. apply keyword_score_full_overlap; assumption.
Qed.

Lemma C3_keyword_coverage_witness :
  ∃ (total : Z) (breakdown : gmap string Z) (kc : Z),
    compute_fit_score "Python developer" "Ruby and Python" = Ok (total, breakdown)
    ∧ breakdown !! "keyword_coverage"%string = Some kc
    ∧ kc = py_round
             (Float64.fmul
                (Float64.RN
                   (ratio
                      (Z.of_nat
                         (size (token_set "Python developer"
                                ∩ token_set "Ruby and Python")))
                      (Z.of_nat (size (token_set "Python developer")))))
                (Float64.of_int 100))
    ∧ 0 <= kc <= 100
    ∧ (Z.of_nat (size (token_set "Python developer")) < 2 ^ 44 ->
       Z.abs (2 * Z.of_nat (size (token_set "Python developer")) * kc
              - 200 * Z.of_nat
                        (size (token_set "Python developer"
                               ∩ token_set "Ruby and Python")))
       <= Z.of_nat (size (token_set "Python developer")))
    ∧ (token_set "Python developer" ⊆ token_set "Ruby and Python" ->
       kc = 100).
Proof.
  apply (C3_keyword_coverage "Python developer" "Ruby and Python").
  apply token_set_nonempty. vm_compute. discriminate.
Defined.

(** C3 as worded fails in its last part: a résumé text may hold every job
    token verbatim and still miss one as a token.  In [python developer.]
    the second token is [developer.], with its full stop, so one of the two
    job tokens is found and the keyword coverage is 50, not 100. *)
Lemma C3_verbatim_counterexample :
  ∃ (total : Z) (breakdown : gmap string Z) (kc : Z),
    compute_fit_score "python developer" "python developer."
    = Ok (total, breakdown)
    ∧ (∀ t : string, t ∈ token_set "python developer" ->
         contains_verbatim "python developer." t = true)
    ∧ _tokens "python developer" = ["python"; "developer"]%string
    ∧ _tokens "python developer." = ["python"; "developer."]%string
    ∧ breakdown !! "keyword_coverage"%string = Some kc
    ∧ kc = 50.
Proof.
  exists 80, (breakdown_of 50 100 100 80), 50.
  split; [vm_compute; reflexivity |].
  split.
  { intros t Ht. unfold token_set in Ht. apply elem_of_list_to_set in Ht.
    assert (E : _tokens "python developer" = ["python"; "developer"]%string)
      by (vm_compute; reflexivity).
    rewrite E in Ht. clear E.
    repeat (apply elem_of_cons in Ht as [-> | Ht];
            [vm_compute; reflexivity |]).
    apply elem_of_nil in Ht. destruct Ht. }
  split; [vm_compute; reflexivity |].
  split; [vm_compute; reflexivity |].
  split; reflexivity.
Qed.

(** C4.  The scorer raises on no input, division by zero included; when
    the job text has no token (the empty text among others) it returns
    the overall score 0 and the empty breakdown. *)
Theorem C4_empty_job_tokens (jd_text resume_md : string) :
  (∀ e : exn, compute_fit_score jd_text resume_md ≠ Raise e)
  ∧ (token_set jd_text = ∅ ->
     compute_fit_score jd_text resume_md = Ok (0, ∅))
  ∧ compute_fit_score "" resume_md = Ok (0, ∅).
Proof.
  split; [| split].
  - intros e. destruct (decide (token_set jd_text = ∅)) as [He | Hne].
    + rewrite (compute_fit_score_empty _ resume_md He). discriminate.
    + rewrite (compute_fit_score_nonempty _ resume_md Hne). discriminate.
  - apply compute_fit_score_empty.
  - apply compute_fit_score_empty. reflexivity.
Qed.

Lemma C4_empty_job_tokens_witness :
  compute_fit_score "A 4 I & the of" "any resume text" = Ok (0, ∅).
Proof.
  refine (proj1 (proj2 (C4_empty_job_tokens "A 4 I & the of"
                          "any resume text")) _).
  apply token_set_empty. vm_compute. reflexivity.
Defined.

(** ** The scorer does not see the order of its sets *)

Lemma set_new_repr (h : set_impl) (l : list string) :
  valid_impl h ->
  NoDup (set_new h l)
  ∧ (∀ x, x ∈ set_new h l <-> x ∈ (list_to_set l : gset string))
  ∧ Z.of_nat (length (set_new h l)) = len (list_to_set l).
Proof.
  intros [Hnew _]. destruct (Hnew l) as [Hnd Hin].
  split; [exact Hnd |].
  split; [intros x; rewrite elem_of_list_to_set; apply Hin |].
  unfold len. f_equal.
  rewrite <- (size_list_to_set (C := gset string) _ Hnd). f_equal.
  apply set_eq. intros x. rewrite !elem_of_list_to_set. apply Hin.
Qed.

Lemma set_and_repr (h : set_impl) (a b : list string) (A B : gset string) :
  valid_impl h ->
  NoDup a -> NoDup b ->
  (∀ x, x ∈ a <-> x ∈ A) -> (∀ x, x ∈ b <-> x ∈ B) ->
  Z.of_nat (length (set_and h a b)) = len (A ∩ B).
Proof.
  intros [_ Hand] Ha Hb HA HB. destruct (Hand a b Ha Hb) as [Hnd Hin].
  unfold len. f_equal.
  rewrite <- (size_list_to_set (C := gset string) _ Hnd). f_equal.
  apply set_eq. intros x.
  rewrite elem_of_list_to_set, elem_of_intersection, Hin, HA, HB.
  reflexivity.
Qed.

Lemma seniority_match_on_repr (a b : list string) (A B : gset string) :
  (∀ x, x ∈ a <-> x ∈ A) -> (∀ x, x ∈ b <-> x ∈ B) ->
  seniority_match_on a b = seniority_match_of A B.
Proof.
  intros HA HB. unfold seniority_match_on, seniority_match_of.
  rewrite (list_filter_iff (fun s => s ∈ a) (fun s => s ∈ A) SENIORITY HA).
  rewrite (list_filter_iff (fun s => s ∈ b) (fun s => s ∈ B) SENIORITY HB).
  reflexivity.
Qed.

Lemma truthy_set_new (h : set_impl) (l : list string) :
  valid_impl h ->
  truthy (set_new h l) = negb (bool_decide ((list_to_set l : gset string) = ∅)).
Proof.
  intros Hv. destruct (set_new_repr h l Hv) as (_ & Hin & _).
  destruct (set_new h l) as [| x r] eqn:E.
  - rewrite bool_decide_eq_true_2; [reflexivity |].
    apply set_eq. intros x. rewrite <- Hin.
    split; intros Hx; [by apply elem_of_nil in Hx |
                       by apply not_elem_of_empty in Hx].
  - rewrite bool_decide_eq_false_2; [reflexivity |].
    intros He. assert (Hx : x ∈ (list_to_set l : gset string))
      by (apply Hin; left).
    rewrite He in Hx. by apply not_elem_of_empty in Hx.
Qed.

(** In whatever order a process lays out its sets, the scorer computes
    what [compute_fit_score] does on the sets themselves. *)
Lemma compute_fit_score_on_sets (h : set_impl) (jd_text resume_md : string) :
  valid_impl h ->
  compute_fit_score_on h jd_text resume_md
  = compute_fit_score jd_text resume_md.
Proof.
  intros Hv.
  destruct (set_new_repr h (_tokens jd_text) Hv) as (Hnd1 & Hin1 & Hlen1).
  destruct (set_new_repr h (_tokens resume_md) Hv) as (Hnd2 & Hin2 & _).
  pose proof (set_and_repr h _ _ _ _ Hv Hnd1 Hnd2 Hin1 Hin2) as Hlen.
  pose proof (seniority_match_on_repr _ _ _ _ Hin1 Hin2) as Hsen.
  pose proof (truthy_set_new h (_tokens jd_text) Hv) as Htr.
  unfold compute_fit_score_on, compute_fit_score.
  fold (token_set jd_text) in *. fold (token_set resume_md) in *.
  rewrite Htr, negb_involutive, Hlen, Hlen1, Hsen. reflexivity.
Qed.

Lemma valid_insertion_order : valid_impl insertion_order.
Proof.
  split.
  - intros l. split; [apply NoDup_remove_dups |].
    intros x. apply elem_of_remove_dups.
  - intros a b Ha _. split; [apply NoDup_filter, Ha |].
    intros x. cbn [set_and insertion_order].
    rewrite list_elem_of_filter. tauto.
Qed.

Lemma valid_reverse_order : valid_impl reverse_order.
Proof.
  split.
  - intros l. cbn [set_new reverse_order].
    split; [rewrite reverse_Permutation; apply NoDup_remove_dups |].
    intros x. rewrite elem_of_reverse. apply elem_of_remove_dups.
  - intros a b _ Hb. split; [apply NoDup_filter, Hb |].
    intros x. cbn [set_and reverse_order].
    rewrite list_elem_of_filter. tauto.
Qed.

(** C8.  The scorer is a function of its two arguments alone.  The one
    thing that changes between two invocations with the same arguments
    is the order in which the process lays out its sets: whatever that
    order is, in one invocation and in the other, the overall score and
    the breakdown are the same, and they are those of
    [compute_fit_score]. *)
Theorem C8_scorer_deterministic (h1 h2 : set_impl)
    (jd_text resume_md : string) :
  valid_impl h1 -> valid_impl h2 ->
  compute_fit_score_on h1 jd_text resume_md
  = compute_fit_score_on h2 jd_text resume_md
  ∧ compute_fit_score_on h1 jd_text resume_md
    = compute_fit_score jd_text resume_md.
Proof.
  intros H1 H2.
  pose proof (compute_fit_score_on_sets h1 jd_text resume_md H1) as E1.
  pose proof (compute_fit_score_on_sets h2 jd_text resume_md H2) as E2.
  split; [| exact E1]. rewrite E1, E2. reflexivity.
Qed.

Lemma C8_scorer_deterministic_witness :
  (compute_fit_score_on insertion_order "Senior Python engineer, 5 years"
     "Python developer"
   = compute_fit_score_on reverse_order "Senior Python engineer, 5 years"
       "Python developer"
   ∧ compute_fit_score_on insertion_order "Senior Python engineer, 5 years"
       "Python developer"
     = compute_fit_score "Senior Python engineer, 5 years" "Python developer")
  ∧ set_new insertion_order (_tokens "Senior Python engineer, 5 years")
    = ["senior"; "python"; "engineer"; "years"]%string
  ∧ set_new reverse_order (_tokens "Senior Python engineer, 5 years")
    = ["years"; "engineer"; "python"; "senior"]%string.
Proof.
  split.
  - apply (C8_scorer_deterministic insertion_order reverse_order
             "Senior Python engineer, 5 years" "Python developer").
    + exact valid_insertion_order.
    + exact valid_reverse_order.
  - split; vm_compute; reflexivity.
Defined.

(** ** The tokenizer *)

Lemma chars_text (l : list ascii) : chars (text l) = l.
Proof. apply list_ascii_of_string_of_list_ascii. Qed.

Lemma text_chars (s : string) : text (chars s) = s.
Proof. apply string_of_list_ascii_of_string. Qed.

Lemma length_text (l : list ascii) : String.length (text l) = length l.
Proof. induction l as [| c l IH]; simpl; [reflexivity | by rewrite IH]. Qed.

Lemma str_lower_text (l : list ascii) :
  str_lower (text l) = text (map Char.lower l).
Proof. unfold str_lower. by rewrite chars_text. Qed.

Lemma lower_letter (c : ascii) :
  Char.is_letter c = true -> Char.is_letter (Char.lower c) = true.
Proof.
  destruct c as [[] [] [] [] [] [] [] []]; vm_compute; intros H;
    first [reflexivity | discriminate H].
Qed.

Lemma close_match_shape (cur : option (list ascii)) (t : list ascii) :
  opens_with_letter cur -> In t (close_match cur) -> token_shaped t.
Proof.
  destruct cur as [[| c2 [| c1 acc]] |]; simpl; try tauto.
  intros (c & r & Hrev & Hc) [<- | []].
  exists c, r. split; [exact Hrev |]. split; [exact Hc |].
  intros ->. apply (f_equal (@length ascii)) in Hrev.
  simpl in Hrev. rewrite !length_app in Hrev. simpl in Hrev. lia.
Qed.

Lemma scan_tokens_shape (s : list ascii) :
  ∀ cur t, opens_with_letter cur -> In t (scan_tokens cur s) -> token_shaped t.
Proof.
  induction s as [| c rest IH]; intros cur t Hcur Hin.
  - simpl in Hin. eapply close_match_shape; eassumption.
  - simpl in Hin. destruct cur as [acc |].
    + destruct (Char.is_token_char c).
      * apply (IH (Some (c :: acc)) t); [| exact Hin].
        destruct Hcur as (c0 & r0 & Hrev & Hc0).
        exists c0, (r0 ++ [c]). simpl. rewrite Hrev. split; [reflexivity | exact Hc0].
      * apply in_app_or in Hin as [Hin | Hin].
        -- eapply close_match_shape; eassumption.
        -- apply (IH None t); [exact I | exact Hin].
    + destruct (Char.is_letter c) eqn:Hc.
      * apply (IH (Some [c]) t); [| exact Hin].
        exists c, []. split; [reflexivity | exact Hc].
      * apply (IH None t); [exact I | exact Hin].
Qed.

Lemma tokens_shape (s t : string) :
  t ∈ _tokens s ->
  ∃ c rest, t = String c rest ∧ Char.is_letter c = true
            ∧ (2 <= String.length t)%nat.
Proof.
  unfold _tokens, TOKEN_RE_findall. intros Hin.
  apply list_elem_of_In, in_map_iff in Hin as (u & <- & Hu).
  apply list_elem_of_In, list_elem_of_filter in Hu as [_ Hu].
  apply list_elem_of_In, in_map_iff in Hu as (l & <- & Hl).
  apply (scan_tokens_shape _ None) in Hl as (c & r & -> & Hc & Hr); [| exact I].
  rewrite str_lower_text. simpl.
  exists (Char.lower c), (text (map Char.lower r)).
  split; [reflexivity |]. split; [apply lower_letter, Hc |].
  simpl. rewrite length_text, length_map.
  destruct r; [congruence | simpl; lia].
Qed.

(** C10.  Every token of every text starts with a letter and has at
    least two characters; so no one-character word (the skill names C
    and R, say) is ever in a token set, nor in the overlap of two. *)
Theorem C10_tokens_start_with_letter_length_2 (s : string) :
  (∀ t : string, t ∈ token_set s ->
     ∃ c rest, t = String c rest ∧ Char.is_letter c = true
               ∧ (2 <= String.length t)%nat)
  ∧ (∀ c : ascii, String c "" ∉ token_set s)
  ∧ (∀ (c : ascii) (resume_md : string),
       (String c "" ∉ overlap s resume_md)
       ∧ (String c "" ∉ overlap resume_md s)).
Proof.
  assert (Hshape : ∀ (u t : string), t ∈ token_set u ->
            ∃ c rest, t = String c rest ∧ Char.is_letter c = true
                      ∧ (2 <= String.length t)%nat).
  { intros u t Ht. apply elem_of_list_to_set in Ht. by apply tokens_shape in Ht. }
  assert (Hone : ∀ (u : string) (c : ascii), String c "" ∉ token_set u).
  { intros u c Hin. apply Hshape in Hin as (c' & rest & _ & _ & Hlen).
    simpl in Hlen. lia. }
  split; [apply Hshape |]. split; [apply Hone |].
  intros c resume_md. unfold overlap. split; intros Hin.
  - apply elem_of_intersection in Hin as [Hin _]. by apply Hone in Hin.
  - apply elem_of_intersection in Hin as [_ Hin]. by apply Hone in Hin.
Qed.

(** ** Seniority alignment *)

Lemma truthy_false_iff {A} (l : list A) : truthy l = false <-> l = [].
Proof. destruct l; simpl; split; congruence. Qed.

Lemma seniority_match_of_spec (jd_tokens res_tokens : gset string) :
  (seniority_aligned jd_tokens res_tokens ->
   seniority_match_of jd_tokens res_tokens = 100)
  ∧ (¬ seniority_aligned jd_tokens res_tokens ->
     seniority_match_of jd_tokens res_tokens = 40).
Proof.
  unfold seniority_match_of, seniority_aligned.
  set (jd_sen := filter (fun s => s ∈ jd_tokens) SENIORITY).
  set (res_sen := filter (fun s => s ∈ res_tokens) SENIORITY).
  assert (Hjd : ∀ s, s ∈ jd_sen <-> s ∈ jd_tokens ∧ s ∈ SENIORITY)
    by (intros s; unfold jd_sen; rewrite list_elem_of_filter; tauto).
  assert (Hres : ∀ s, s ∈ res_sen <-> s ∈ res_tokens ∧ s ∈ SENIORITY)
    by (intros s; unfold res_sen; rewrite list_elem_of_filter; tauto).
  destruct (existsb (fun s => bool_decide (s ∈ res_sen)) jd_sen) eqn:Hex.
  - (* a shared term *)
    apply existsb_exists in Hex as (s & Hs & Hin).
    apply list_elem_of_In, Hjd in Hs as [Hs1 Hs2].
    apply bool_decide_eq_true_1, Hres in Hin as [Hin _].
    rewrite andb_true_r.
    destruct (truthy jd_sen); simpl; split; try reflexivity.
    all: intros Hno; exfalso; apply Hno; right; exists s; auto.
  - rewrite andb_false_r. simpl.
    destruct (truthy jd_sen) eqn:Ht; simpl.
    + (* terms in the posting, none shared *)
      split; [| reflexivity].
      intros [Hnone | (s & Hs & Hj & Hr)]; exfalso.
      * destruct jd_sen as [| x l] eqn:Hl; [discriminate |].
        assert (Hx : x ∈ jd_tokens ∧ x ∈ SENIORITY) by (apply Hjd; left).
        destruct Hx as [Hx1 Hx2]. by apply (Hnone x).
      * assert (Hfalse : bool_decide (s ∈ res_sen) = true).
        { apply bool_decide_eq_true_2, Hres. auto. }
        assert (Hsome : existsb (fun s => bool_decide (s ∈ res_sen)) jd_sen
                        = true).
        { apply existsb_exists. exists s. split; [| exact Hfalse].
          apply list_elem_of_In, Hjd. auto. }
        congruence.
    + (* no term in the posting *)
      apply truthy_false_iff in Ht. split; [reflexivity |].
      intros Hno. exfalso. apply Hno. left. intros s Hs Hj.
      assert (Hin : s ∈ jd_sen) by (apply Hjd; auto).
      rewrite Ht in Hin. by apply not_elem_of_nil in Hin.
Qed.

(** C5.  Whenever the job token set is non-empty, the seniority
    sub-score is 100 if the job token set has none of the ten seniority
    terms or the résumé token set has one of those the job token set has,
    and 40 otherwise. *)
Theorem C5_seniority_alignment (jd_text resume_md : string) :
  token_set jd_text ≠ ∅ ->
  ∃ (total : Z) (breakdown : gmap string Z) (sen : Z),
    compute_fit_score jd_text resume_md = Ok (total, breakdown)
    ∧ breakdown !! "seniority"%string = Some sen
    ∧ (seniority_aligned (token_set jd_text) (token_set resume_md) ->
       sen = 100)
    ∧ (¬ seniority_aligned (token_set jd_text) (token_set resume_md) ->
       sen = 40).
Proof.
  intros Hne.
  destruct (breakdown_lookup (keyword_score jd_text resume_md)
    (seniority_match jd_text resume_md) (numeric_match_of jd_text resume_md)
    (total_score jd_text resume_md)) as (_ & H2 & _).
  exists (total_score jd_text resume_md),
    (breakdown_of (keyword_score jd_text resume_md)
       (seniority_match jd_text resume_md)
       (numeric_match_of jd_text resume_md)
       (total_score jd_text resume_md)),
    (seniority_match jd_text resume_md).
  split; [apply compute_fit_score_nonempty, Hne |].
  split; [exact H2 |]. apply seniority_match_of_spec.
Qed.

Lemma senior_vs_junior_not_aligned :
  ¬ seniority_aligned (token_set "Senior Engineer role")
      (token_set "Junior Developer").
Proof.
  intros [Hnone | (s & _ & Hj & Hr)].
  - apply (Hnone "senior"%string).
    + apply list_elem_of_In. vm_compute. tauto.
    + apply elem_of_list_to_set, list_elem_of_In. vm_compute. tauto.
  - apply elem_of_list_to_set, list_elem_of_In in Hr.
    apply elem_of_list_to_set, list_elem_of_In in Hj.
    vm_compute in Hr. vm_compute in Hj.
    destruct Hr as [<- | [<- | []]];
      destruct Hj as [Hj | [Hj | [Hj | []]]]; discriminate Hj.
Qed.

(** The mismatch case of the specification: job text "Senior Engineer
    role", résumé "Junior Developer", seniority 40. *)
Lemma C5_seniority_alignment_witness :
  ∃ (total : Z) (breakdown : gmap string Z),
    compute_fit_score "Senior Engineer role" "Junior Developer"
    = Ok (total, breakdown)
    ∧ breakdown !! "seniority"%string = Some 40.
Proof.
  destruct (C5_seniority_alignment "Senior Engineer role" "Junior Developer")
    as (total & breakdown & sen & Hcfs & Hsen & _ & H40).
  - apply token_set_nonempty. vm_compute. discriminate.
  - exists total, breakdown. split; [exact Hcfs |].
    rewrite Hsen. f_equal. apply H40. exact senior_vs_junior_not_aligned.
Defined.

(** ** The years pattern *)

Lemma span_spec {A} (p : A -> bool) (l : list A) :
  l = (span p l).1 ++ (span p l).2
  ∧ Forall (fun x => p x = true) (span p l).1
  ∧ match (span p l).2 with [] => True | x :: _ => p x = false end.
Proof.
  induction l as [| x l IH]; simpl.
  - repeat split; constructor.
  - destruct (p x) eqn:Hx.
    + destruct (span p l) as [a b]. simpl in *.
      destruct IH as (Hl & Ha & Hb). repeat split.
      * by rewrite <- Hl.
      * by constructor.
      * exact Hb.
    + simpl. rewrite Hx. repeat split. constructor.
Qed.

Lemma span_app {A} (p : A -> bool) (a b : list A) :
  Forall (fun x => p x = true) a ->
  match b with [] => True | x :: _ => p x = false end ->
  span p (a ++ b) = (a, b).
Proof.
  intros Ha Hb. induction Ha as [| x a Hx Ha IH]; simpl.
  - destruct b as [| y b]; [reflexivity |]. simpl. by rewrite Hb.
  - rewrite Hx, IH. reflexivity.
Qed.

Lemma starts_with_spec (p s : list ascii) :
  starts_with p s = true <-> ∃ post, s = p ++ post.
Proof.
  revert s. induction p as [| a p IH]; intros s; simpl.
  - split; [intros _; by exists s | reflexivity].
  - destruct s as [| b s].
    + split; [discriminate | intros (post & H); discriminate H].
    + rewrite andb_true_iff, IH. split.
      * intros [Hab (post & ->)]. apply Ascii.eqb_eq in Hab as ->. by exists post.
      * intros (post & H). injection H as -> ->. split; [apply Ascii.eqb_refl | by exists post].
Qed.

Lemma space_not_digit (c : ascii) :
  Char.is_space c = true -> Char.is_digit c = false.
Proof.
  destruct c as [[] [] [] [] [] [] [] []]; vm_compute; intros H;
    first [reflexivity | discriminate H].
Qed.

Lemma match_years_at_sound (s ds : list ascii) (n : nat) :
  match_years_at s = Some (ds, n) -> years_figure_at s.
Proof.
  unfold match_years_at.
  destruct (span_spec Char.is_digit s) as (Hs & Hds & _).
  destruct (span Char.is_digit s) as [ds' r1]. simpl in Hs, Hds.
  destruct (span_spec Char.is_space r1) as (Hr1 & Hws & _).
  destruct (span Char.is_space r1) as [ws r2]. simpl in Hr1, Hws.
  destruct ds' as [| d ds']; [discriminate |].
  destruct ws as [| w ws]; [discriminate |].
  destruct (starts_with years r2) eqn:Hy; [| discriminate].
  intros _. apply starts_with_spec in Hy as (post & ->).
  exists (d :: ds'), (w :: ws), post. subst r1.
  split; [exact Hs |]. repeat split; try assumption; discriminate.
Qed.

Lemma match_years_at_complete (t : list ascii) :
  years_figure_at t -> match_years_at t <> None.
Proof.
  intros (ds & ws & post & -> & Hds0 & Hds & Hws0 & Hws).
  unfold match_years_at.
  destruct ws as [| w ws]; [congruence |].
  destruct ds as [| d ds]; [congruence |].
  rewrite (span_app Char.is_digit (d :: ds) ((w :: ws) ++ years ++ post) Hds).
  2: { simpl. apply space_not_digit. by inversion Hws. }
  rewrite (span_app Char.is_space (w :: ws) (years ++ post) Hws).
  2: { reflexivity. }
  assert (Hy : starts_with years (years ++ post) = true)
    by (apply starts_with_spec; by exists post).
  rewrite Hy. discriminate.
Qed.

Lemma findall_years_nonempty (s : list ascii) :
  findall_years_from 0 s <> [] <->
  ∃ pre t, s = pre ++ t ∧ match_years_at t <> None.
Proof.
  induction s as [| c rest IH].
  - simpl. split; [congruence |].
    intros (pre & t & Hs & Hm). symmetry in Hs.
    apply app_eq_nil in Hs as [-> ->]. by vm_compute in Hm.
  - cbn [findall_years_from].
    destruct (match_years_at (c :: rest)) as [[ds n] |] eqn:Hm.
    + split; [| discriminate].
      intros _. exists [], (c :: rest). split; [reflexivity | congruence].
    + rewrite IH. split.
      * intros (pre & t & -> & Ht). by exists (c :: pre), t.
      * intros (pre & t & Hs & Ht). destruct pre as [| c' pre].
        -- simpl in Hs. subst t. congruence.
        -- injection Hs as -> ->. by exists pre, t.
Qed.

Lemma findall_years_truthy (s : string) :
  truthy (re_findall_years (str_lower s)) = true <-> mentions_years s.
Proof.
  unfold re_findall_years, mentions_years.
  assert (Ht : ∀ l : list string, truthy l = true <-> l <> [])
    by (intros [| x l]; simpl; split; congruence).
  rewrite Ht, findall_years_nonempty. split.
  - intros (pre & t & Hs & Hm). exists pre, t. split; [exact Hs |].
    destruct (match_years_at t) as [[ds n] |] eqn:Hmt; [| congruence].
    eapply match_years_at_sound, Hmt.
  - intros (pre & t & Hs & Hfig). exists pre, t. split; [exact Hs |].
    by apply match_years_at_complete.
Qed.

Lemma numeric_match_of_spec (jd_text resume_md : string) :
  (¬ mentions_years jd_text -> numeric_match_of jd_text resume_md = 100)
  ∧ (mentions_years jd_text -> mentions_years resume_md ->
     numeric_match_of jd_text resume_md = 80)
  ∧ (mentions_years jd_text -> ¬ mentions_years resume_md ->
     numeric_match_of jd_text resume_md = 30).
Proof.
  unfold numeric_match_of.
  pose proof (findall_years_truthy jd_text) as Hjd.
  pose proof (findall_years_truthy resume_md) as Hres.
  destruct (truthy (re_findall_years (str_lower jd_text)));
    destruct (truthy (re_findall_years (str_lower resume_md))); simpl.
  all: repeat split; intros; try reflexivity; exfalso.
  all: try (match goal with H : ¬ _ |- _ => apply H end; tauto).
  all: try (assert (false = true) by tauto; discriminate).
Qed.



(** ** The end-to-end scenario *)

(** C2, as amended.  On the scenario's two texts the scorer returns
    keyword coverage 57, seniority 100, numeric 80 and overall 81: the
    tokens [engineer.], [required.] and [aws.] keep their full stop, so
    four of the seven job tokens are résumé tokens. *)
Theorem C2_scenario_scores :
  token_set scenario_jd
  = list_to_set ["senior"; "python"; "engineer."; "years"; "experience";
                 "aws"; "required."]%string
  ∧ token_set scenario_resume
    = list_to_set ["senior"; "engineer"; "years"; "experience"; "python";
                   "aws."]%string
  ∧ compute_fit_score scenario_jd scenario_resume
    = Ok (81, breakdown_of 57 100 80 81).
Proof. repeat split; vm_compute; reflexivity. Qed.

(** C2 as stated fails: the keyword coverage is not 86 and the overall
    score is not 92. *)
Lemma C2_scenario_counterexample :
  ∃ (total : Z) (breakdown : gmap string Z) (kc : Z),
    compute_fit_score scenario_jd scenario_resume = Ok (total, breakdown)
    ∧ breakdown !! "keyword_coverage"%string = Some kc
    ∧ kc ≠ 86 ∧ total ≠ 92.
Proof.
  exists 81, (breakdown_of 57 100 80 81), 57.
  split; [vm_compute; reflexivity |].
  split; [reflexivity |]. split; discriminate.
Qed.

(** ** The extractor's fallback *)

Lemma max_by_len_spec (items : list string) :
  match max_by_len items with
  | None => items = []
  | Some best =>
      best ∈ items
      ∧ ∀ x, x ∈ items -> (String.length x <= String.length best)%nat
  end.
Proof.
  induction items as [| x rest IH]; simpl; [reflexivity |].
  destruct (max_by_len rest) as [y |].
  - destruct IH as [Hy Hmax].
    destruct (Nat.ltb_spec (String.length x) (String.length y)).
    + split; [by right |]. intros z Hz.
      apply elem_of_cons in Hz as [-> | Hz]; [lia | by apply Hmax].
    + split; [by left |]. intros z Hz.
      apply elem_of_cons in Hz as [-> | Hz]; [lia |].
      specialize (Hmax z Hz). lia.
  - subst rest. split; [by left |]. intros z Hz.
    apply elem_of_cons in Hz as [-> | Hz]; [lia |].
    by apply not_elem_of_nil in Hz.
Qed.

(** X12.  The fallback of [job_apply_assistant.py] does what the
    specification says: it returns a longest text node, normalized, when
    one is longer than 100 characters, and the whole text otherwise. *)
Lemma fallback_job_apply_assistant_spec (nodes : list string) :
  (∃ best, best ∈ nodes ∧ (100 < String.length best)%nat
           ∧ (∀ x, x ∈ nodes -> (String.length x <= String.length best)%nat)
           ∧ fallback_job_apply_assistant nodes = _strip_html best)
  ∨ ((∀ x, x ∈ nodes -> (String.length x <= 100)%nat)
     ∧ fallback_job_apply_assistant nodes = _strip_html (get_text nodes)).
Proof.
  unfold fallback_job_apply_assistant.
  set (candidates := filter (fun el => (100 < String.length el)%nat) nodes).
  assert (Hc : ∀ x, x ∈ candidates <-> (100 < String.length x)%nat ∧ x ∈ nodes)
    by (intros x; unfold candidates; rewrite list_elem_of_filter; tauto).
  pose proof (max_by_len_spec candidates) as Hmax.
  destruct (max_by_len candidates) as [best |].
  - left. destruct Hmax as [Hin Hmax]. apply Hc in Hin as [Hlen Hin].
    exists best. repeat split; try assumption.
    intros x Hx. destruct (Nat.le_gt_cases (String.length x) 100) as [Hle | Hgt].
    + lia.
    + apply Hmax, Hc. auto.
  - right. split; [| reflexivity].
    intros x Hx. destruct (Nat.le_gt_cases (String.length x) 100) as [Hle | Hgt];
      [exact Hle |].
    assert (Hin : x ∈ candidates) by (apply Hc; auto).
    rewrite Hmax in Hin. by apply not_elem_of_nil in Hin.
Qed.

(** C9, at its failing input.  On a page of one 500-character paragraph
    and two short ones, the fallback of [replit_app.py] returns the text
    of the whole page, not the long paragraph: [get_text] joins the text
    nodes with single newlines, so the split at blank lines never
    separates two nodes.  The fallback of [job_apply_assistant.py]
    returns the long paragraph. *)
Theorem C9_replit_fallback_returns_whole_page :
  get_text three_paragraph_page
  = (paragraph 500 "x" ++ String newline "short one"
     ++ String newline "short two")%string
  ∧ str_split_blank_lines (get_text three_paragraph_page)
    = [get_text three_paragraph_page]
  ∧ fallback_replit_app three_paragraph_page
    = (paragraph 500 "x" ++ " short one short two")%string
  ∧ fallback_replit_app three_paragraph_page ≠ paragraph 500 "x"
  ∧ fallback_job_apply_assistant three_paragraph_page = paragraph 500 "x".
Proof.
  assert (Hr : fallback_replit_app three_paragraph_page
               = (paragraph 500 "x" ++ " short one short two")%string)
    by (vm_compute; reflexivity).
  split; [vm_compute; reflexivity |].
  split; [vm_compute; reflexivity |].
  split; [exact Hr |].
  split; [| vm_compute; reflexivity].
  rewrite Hr. intros Heq. apply (f_equal String.length) in Heq.
  vm_compute in Heq. discriminate Heq.
Qed.

(** * Further properties *)

(** ** Whitespace normalization: [_strip_html] *)

Lemma collapse_only_blanks (l : list ascii) :
  ∀ b, only_blanks (collapse_spaces b l).
Proof.
  induction l as [| x l IH]; intros b c Hin Hc; simpl in Hin; [contradiction |].
  destruct (Char.is_space x) eqn:Hx.
  - destruct b; simpl in Hin.
    + by apply (IH true).
    + destruct Hin as [<- | Hin]; [reflexivity | by apply (IH true)].
  - destruct Hin as [<- | Hin]; [congruence | by apply (IH false)].
Qed.

Lemma collapse_true_head (l : list ascii) (c : ascii) (r : list ascii) :
  collapse_spaces true l = c :: r -> Char.is_space c = false.
Proof.
  induction l as [| x l IH]; simpl; [discriminate |].
  destruct (Char.is_space x) eqn:Hx; simpl.
  - exact IH.
  - intros H. injection H as <- _. exact Hx.
Qed.

Lemma collapse_no_space_run (l : list ascii) :
  ∀ b, no_space_run (collapse_spaces b l).
Proof.
  induction l as [| x l IH]; intros b a r c d Heq Hc; simpl in Heq.
  - destruct a; discriminate Heq.
  - destruct (Char.is_space x) eqn:Hx.
    + destruct b; simpl in Heq.
      * by apply (IH true a r c d).
      * destruct a as [| a0 a]; simpl in Heq.
        -- injection Heq as _ Heq. by apply collapse_true_head in Heq.
        -- injection Heq as _ Heq. by apply (IH true a r c d).
    + destruct a as [| a0 a]; simpl in Heq.
      * injection Heq as <- _. congruence.
      * injection Heq as _ Heq. by apply (IH false a r c d).
Qed.

Lemma lstrip_spec (l : list ascii) :
  ∃ ws, l = ws ++ lstrip l
        ∧ Forall (fun c => Char.is_space c = true) ws
        ∧ ∀ c r, lstrip l = c :: r -> Char.is_space c = false.
Proof.
  induction l as [| x l (ws & Hl & Hws & Hhead)]; simpl.
  - exists []. repeat split; [constructor | discriminate].
  - destruct (Char.is_space x) eqn:Hx.
    + exists (x :: ws). repeat split.
      * simpl. by rewrite <- Hl.
      * by constructor.
      * exact Hhead.
    + exists []. repeat split; [constructor |].
      intros c r H. injection H as <- _. exact Hx.
Qed.

(** [strip] cuts whitespace off both ends and nothing else. *)
Lemma strip_chars_spec (l : list ascii) :
  ∃ ws1 ws2, l = ws1 ++ strip_chars l ++ ws2
             ∧ Forall (fun c => Char.is_space c = true) ws1
             ∧ Forall (fun c => Char.is_space c = true) ws2
             ∧ no_outer_space (strip_chars l).
Proof.
  unfold strip_chars.
  destruct (lstrip_spec l) as (ws1 & Hl & Hws1 & Hhead1).
  destruct (lstrip_spec (rev (lstrip l))) as (ws2 & Hr & Hws2 & Hhead2).
  set (m := lstrip (rev (lstrip l))) in *.
  assert (Hl1 : lstrip l = rev m ++ rev ws2).
  { rewrite <- rev_app_distr, <- Hr. by rewrite rev_involutive. }
  exists ws1, (rev ws2). split; [by rewrite <- Hl1 |].
  split; [exact Hws1 |]. split; [by apply Forall_rev |].
  split.
  - intros c r Hc. destruct (rev m) as [| c' r'] eqn:Hm; [discriminate |].
    injection Hc as -> ->. apply (Hhead1 c (r ++ rev ws2)). by rewrite Hl1.
  - intros c r Hc. apply (Hhead2 c (rev r)).
    rewrite <- (rev_involutive m), Hc, rev_app_distr. reflexivity.
Qed.

Lemma only_blanks_infix (a m b : list ascii) :
  only_blanks (a ++ m ++ b) -> only_blanks m.
Proof.
  intros H c Hin. apply H. apply in_or_app. right. apply in_or_app. by left.
Qed.

Lemma no_space_run_infix (a m b : list ascii) :
  no_space_run (a ++ m ++ b) -> no_space_run m.
Proof.
  intros H a' b' c d ->. apply (H (a ++ a') (b' ++ b) c d).
  by rewrite <- !app_assoc.
Qed.

(** X1.  The text [_strip_html] returns is whitespace-normalized: its
    only whitespace character is the space, no two spaces are adjacent,
    and it neither starts nor ends with one. *)
Theorem strip_html_normalized (s : string) :
  only_blanks (chars (_strip_html s))
  ∧ no_space_run (chars (_strip_html s))
  ∧ no_outer_space (chars (_strip_html s)).
Proof.
  unfold _strip_html. rewrite chars_text.
  set (l := collapse_spaces false (chars s)).
  destruct (strip_chars_spec l) as (ws1 & ws2 & Hl & _ & _ & Houter).
  split; [| split; [| exact Houter]].
  - apply (only_blanks_infix ws1 _ ws2). rewrite <- Hl.
    apply collapse_only_blanks.
  - apply (no_space_run_infix ws1 _ ws2). rewrite <- Hl.
    apply collapse_no_space_run.
Qed.

Lemma collapse_fixpoint (l : list ascii) :
  ∀ b : bool,
    only_blanks l -> no_space_run l ->
    (b = true -> ∀ c r, l = c :: r -> Char.is_space c = false) ->
    collapse_spaces b l = l.
Proof.
  induction l as [| x l IH]; intros b Hblank Hrun Hhead; simpl; [reflexivity |].
  assert (Hblank' : only_blanks l) by (intros c Hc; apply Hblank; by right).
  assert (Hrun' : no_space_run l).
  { intros a r c d ->. apply (Hrun (x :: a) r c d). reflexivity. }
  destruct (Char.is_space x) eqn:Hx.
  - destruct b.
    + rewrite (Hhead eq_refl x l eq_refl) in Hx. discriminate.
    + rewrite (Hblank x (or_introl eq_refl) Hx). simpl. f_equal.
      apply IH; [exact Hblank' | exact Hrun' |].
      intros _ c r ->. by apply (Hrun [] r x c).
  - f_equal. apply IH; [exact Hblank' | exact Hrun' | discriminate].
Qed.

Lemma lstrip_fixpoint (l : list ascii) :
  (∀ c r, l = c :: r -> Char.is_space c = false) -> lstrip l = l.
Proof.
  destruct l as [| x l]; simpl; [reflexivity |].
  intros H. by rewrite (H x l eq_refl).
Qed.

Lemma strip_fixpoint (l : list ascii) : no_outer_space l -> strip_chars l = l.
Proof.
  intros [Hhead Hlast]. unfold strip_chars.
  rewrite (lstrip_fixpoint l Hhead).
  rewrite lstrip_fixpoint; [apply rev_involutive |].
  intros c r Hc. apply (Hlast c (rev r)).
  rewrite <- (rev_involutive l), Hc. reflexivity.
Qed.

(** X2.  Normalizing twice is normalizing once. *)
Theorem strip_html_idempotent (s : string) :
  _strip_html (_strip_html s) = _strip_html s.
Proof.
  destruct (strip_html_normalized s) as (Hblank & Hrun & Houter).
  unfold _strip_html at 1.
  rewrite collapse_fixpoint; [| exact Hblank | exact Hrun | discriminate].
  rewrite strip_fixpoint by exact Houter. apply text_chars.
Qed.

Lemma visible_app (a b : list ascii) : visible (a ++ b) = visible a ++ visible b.
Proof. unfold visible. apply List.filter_app. Qed.

Lemma visible_cons (x : ascii) (l : list ascii) :
  visible (x :: l) = if Char.is_space x then visible l else x :: visible l.
Proof.
  unfold visible. cbn [List.filter]. by destruct (Char.is_space x).
Qed.

Lemma visible_spaces (ws : list ascii) :
  Forall (fun c => Char.is_space c = true) ws -> visible ws = [].
Proof.
  induction 1 as [| c ws Hc _ IH]; [reflexivity |].
  by rewrite visible_cons, Hc.
Qed.

Lemma visible_collapse (l : list ascii) :
  ∀ b, visible (collapse_spaces b l) = visible l.
Proof.
  induction l as [| x l IH]; intros b; [reflexivity |].
  cbn [collapse_spaces]. rewrite (visible_cons x l).
  destruct (Char.is_space x) eqn:Hx.
  - destruct b; cbn [app].
    + apply IH.
    + rewrite visible_cons. change (Char.is_space " ") with true. apply IH.
  - rewrite visible_cons, Hx. by rewrite IH.
Qed.

(** X3.  Normalization touches whitespace only: the other characters
    of the text come out unchanged and in the same order. *)
Theorem strip_html_keeps_visible (s : string) :
  visible (chars (_strip_html s)) = visible (chars s).
Proof.
  unfold _strip_html. rewrite chars_text.
  set (l := collapse_spaces false (chars s)).
  destruct (strip_chars_spec l) as (ws1 & ws2 & Hl & Hws1 & Hws2 & _).
  rewrite <- (visible_collapse (chars s) false). fold l.
  rewrite Hl at 2. rewrite !visible_app.
  rewrite (visible_spaces ws1 Hws1), (visible_spaces ws2 Hws2).
  by rewrite app_nil_r.
Qed.

(** ** Tokens: case and stopwords *)

Lemma lower_classes (c : ascii) :
  Char.is_letter (Char.lower c) = Char.is_letter c
  ∧ Char.is_token_char (Char.lower c) = Char.is_token_char c
  ∧ Char.lower (Char.lower c) = Char.lower c
  ∧ (Char.is_token_char c = true -> Char.is_upper (Char.lower c) = false).
Proof.
  destruct c as [[] [] [] [] [] [] [] []]; vm_compute; repeat split;
    intros; first [reflexivity | discriminate].
Qed.

Lemma str_lower_idempotent (s : string) : str_lower (str_lower s) = str_lower s.
Proof.
  unfold str_lower. rewrite chars_text, map_map. f_equal.
  apply map_ext. intros c. apply lower_classes.
Qed.

Lemma close_match_lower (cur : option (list ascii)) :
  close_match (option_map (map Char.lower) cur)
  = map (map Char.lower) (close_match cur).
Proof.
  destruct cur as [[| c2 [| c1 acc]] |]; try reflexivity.
  cbn [option_map close_match map]. f_equal.
  change (Char.lower c2 :: Char.lower c1 :: map Char.lower acc)
    with (map Char.lower (c2 :: c1 :: acc)).
  by rewrite map_rev.
Qed.

(** Scanning the lowercased text gives the lowercased matches. *)
Lemma scan_tokens_lower (l : list ascii) :
  ∀ cur, scan_tokens (option_map (map Char.lower) cur) (map Char.lower l)
         = map (map Char.lower) (scan_tokens cur l).
Proof.
  induction l as [| c l IH]; intros cur.
  - apply close_match_lower.
  - destruct (lower_classes c) as (Hl & Ht & _).
    cbn [map scan_tokens]. destruct cur as [acc |]; cbn [option_map].
    + rewrite Ht. destruct (Char.is_token_char c).
      * apply (IH (Some (c :: acc))).
      * rewrite map_app. f_equal.
        -- apply (close_match_lower (Some acc)).
        -- apply (IH None).
    + rewrite Hl. destruct (Char.is_letter c).
      * apply (IH (Some [c])).
      * apply (IH None).
Qed.

Lemma findall_lower (s : string) :
  TOKEN_RE_findall (str_lower s) = map str_lower (TOKEN_RE_findall s).
Proof.
  unfold TOKEN_RE_findall, str_lower at 1. rewrite chars_text.
  change (scan_tokens None (map Char.lower (chars s)))
    with (scan_tokens (option_map (map Char.lower) None)
            (map Char.lower (chars s))).
  rewrite (scan_tokens_lower (chars s) None), !map_map.
  apply map_ext. intros l. by rewrite str_lower_text.
Qed.

Lemma tokens_of_lowered (us : list string) :
  map str_lower (filter (fun t => str_lower t ∉ STOPWORDS) (map str_lower us))
  = map str_lower (filter (fun t => str_lower t ∉ STOPWORDS) us).
Proof.
  induction us as [| u us IH]; [reflexivity |].
  cbn [map].
  rewrite !filter_cons.
  rewrite str_lower_idempotent.
  destruct (decide (str_lower u ∉ STOPWORDS)).
  - cbn [map]. rewrite str_lower_idempotent, IH. reflexivity.
  - exact IH.
Qed.

Lemma tokens_lower (s : string) : _tokens (str_lower s) = _tokens s.
Proof. unfold _tokens. rewrite findall_lower. apply tokens_of_lowered. Qed.

Lemma token_set_lower (s : string) : token_set (str_lower s) = token_set s.
Proof. unfold token_set. rewrite tokens_lower. reflexivity. Qed.

Lemma compute_fit_score_ext (a b a' b' : string) :
  token_set a' = token_set a -> token_set b' = token_set b ->
  str_lower a' = str_lower a -> str_lower b' = str_lower b ->
  compute_fit_score a' b' = compute_fit_score a b.
Proof.
  intros Ha Hb Hla Hlb. unfold compute_fit_score, numeric_match_of.
  rewrite Ha, Hb, Hla, Hlb. reflexivity.
Qed.

Lemma ascii_fold_lower (c : ascii) :
  Char.lower (ascii_fold_char c) = Char.lower c.
Proof.
  destruct c as [[] [] [] [] [] [] [] []]; vm_compute; reflexivity.
Qed.

Lemma same_case_lower (s s' : string) :
  same_up_to_ascii_case s s' -> str_lower s = str_lower s'.
Proof.
  unfold same_up_to_ascii_case, str_lower. intros H. f_equal.
  assert (E : ∀ l, map Char.lower l
                   = map Char.lower (map ascii_fold_char l)).
  { intros l. rewrite map_map. apply map_ext. intros c.
    symmetry. apply ascii_fold_lower. }
  rewrite (E (chars s)), (E (chars s')), H. reflexivity.
Qed.

Lemma same_case_token_set (s s' : string) :
  same_up_to_ascii_case s s' -> token_set s = token_set s'.
Proof.
  intros H. transitivity (token_set (str_lower s)).
  - symmetry. apply token_set_lower.
  - rewrite (same_case_lower s s' H). apply token_set_lower.
Qed.

(** X5.  The scorer ignores the case of the letters A-Z: two job
    descriptions that differ at most in the case of these letters, and
    two résumés that do, have the same token sets and get the same
    result. *)
Theorem scorer_ignores_ascii_case (jd_text jd_text' resume_md resume_md'
    : string) :
  same_up_to_ascii_case jd_text jd_text' ->
  same_up_to_ascii_case resume_md resume_md' ->
  token_set jd_text = token_set jd_text'
  ∧ token_set resume_md = token_set resume_md'
  ∧ compute_fit_score jd_text resume_md
    = compute_fit_score jd_text' resume_md'.
Proof.
  intros Hjd Hres.
  pose proof (same_case_token_set _ _ Hjd) as Tjd.
  pose proof (same_case_token_set _ _ Hres) as Tres.
  split; [exact Tjd |]. split; [exact Tres |].
  apply compute_fit_score_ext.
  - exact Tjd.
  - exact Tres.
  - exact (same_case_lower _ _ Hjd).
  - exact (same_case_lower _ _ Hres).
Qed.

Lemma scorer_ignores_ascii_case_witness :
  token_set "Senior PYTHON Engineer, 5 Years"
  = token_set "senior Python engineer, 5 YEARS"
  ∧ token_set "python DEVELOPER with 6 years"
    = token_set "Python developer with 6 Years"
  ∧ compute_fit_score "Senior PYTHON Engineer, 5 Years"
      "python DEVELOPER with 6 years"
    = compute_fit_score "senior Python engineer, 5 YEARS"
        "Python developer with 6 Years".
Proof.
  apply (scorer_ignores_ascii_case "Senior PYTHON Engineer, 5 Years"
           "senior Python engineer, 5 YEARS"
           "python DEVELOPER with 6 years"
           "Python developer with 6 Years").
  - reflexivity.
  - reflexivity.
Defined.

Lemma letter_is_token_char (c : ascii) :
  Char.is_letter c = true -> Char.is_token_char c = true.
Proof. unfold Char.is_token_char. intros ->. reflexivity. Qed.

Lemma close_match_chars (cur : option (list ascii)) (t : list ascii) :
  (∀ acc, cur = Some acc -> token_chars_only acc) ->
  In t (close_match cur) -> token_chars_only t.
Proof.
  destruct cur as [[| c2 [| c1 acc]] |]; cbn [close_match In]; try tauto.
  intros H [<- | []]. apply Forall_rev. apply H. reflexivity.
Qed.

Lemma scan_tokens_chars (s : list ascii) :
  ∀ cur t,
    (∀ acc, cur = Some acc -> token_chars_only acc) ->
    In t (scan_tokens cur s) -> token_chars_only t.
Proof.
  induction s as [| c rest IH]; intros cur t Hcur Hin.
  - eapply close_match_chars; eassumption.
  - cbn [scan_tokens] in Hin. destruct cur as [acc |].
    + destruct (Char.is_token_char c) eqn:Hc.
      * apply (IH (Some (c :: acc)) t); [| exact Hin].
        intros acc' [= <-]. constructor; [exact Hc | by apply Hcur].
      * apply in_app_or in Hin as [Hin | Hin].
        -- eapply close_match_chars; eassumption.
        -- apply (IH None t); [discriminate | exact Hin].
    + destruct (Char.is_letter c) eqn:Hc.
      * apply (IH (Some [c]) t); [| exact Hin].
        intros acc' [= <-]. constructor; [| constructor].
        apply letter_is_token_char, Hc.
      * apply (IH None t); [discriminate | exact Hin].
Qed.

(** X4.  Every token is lowercase, is made of characters of the token
    pattern only (so it holds no whitespace and no capital), and is no
    stopword. *)
Theorem tokens_lowercase_no_stopword (s : string) :
  (∀ t : string, t ∈ token_set s ->
     str_lower t = t
     ∧ Forall (fun c => Char.is_token_char c = true
                        ∧ Char.is_upper c = false
                        ∧ Char.is_space c = false) (chars t))
  ∧ (∀ t : string, t ∈ token_set s -> t ∈ STOPWORDS -> False).
Proof.
  assert (Hin : ∀ t : string, t ∈ token_set s ->
            ∃ l, t = text (map Char.lower l) ∧ token_chars_only l
                 ∧ (t ∈ STOPWORDS -> False)).
  { intros t Ht. apply elem_of_list_to_set in Ht. unfold _tokens in Ht.
    apply list_elem_of_In, in_map_iff in Ht as (u & <- & Hu).
    apply list_elem_of_In, list_elem_of_filter in Hu as [Hstop Hu].
    unfold TOKEN_RE_findall in Hu.
    apply list_elem_of_In, in_map_iff in Hu as (l & <- & Hl).
    exists l. split; [apply str_lower_text |]. split; [| exact Hstop].
    apply (scan_tokens_chars (chars s) None l); [discriminate | exact Hl]. }
  split.
  - intros t Ht. destruct (Hin t Ht) as (l & -> & Hl & _). split.
    + rewrite str_lower_text, map_map. f_equal. apply map_ext.
      intros c. apply lower_classes.
    + rewrite chars_text. apply Forall_map.
      eapply Forall_impl; [exact Hl |]. intros c Hc. cbn beta in *.
      destruct (lower_classes c) as (_ & Ht' & _ & Hup).
      split; [congruence |]. split; [exact (Hup Hc) |].
      rewrite <- Ht' in Hc. revert Hc. generalize (Char.lower c). clear.
      intros c. destruct c as [[] [] [] [] [] [] [] []]; vm_compute;
        intros H; first [reflexivity | discriminate H].
  - intros t Ht. destruct (Hin t Ht) as (l & _ & _ & Hstop). exact Hstop.
Qed.

(** ** The tokenizer finds every word *)

Lemma outside_not_letter (c : ascii) :
  Char.is_token_char c = false -> Char.is_letter c = false.
Proof.
  intros Hc. destruct (Char.is_letter c) eqn:Hl; [| reflexivity].
  rewrite (letter_is_token_char c Hl) in Hc. discriminate Hc.
Qed.

(** After a character outside the second class no match is open. *)
Lemma scan_tokens_reset (p : list ascii) (c : ascii) (rest : list ascii)
    (cur : option (list ascii)) :
  Char.is_token_char c = false ->
  ∃ found, scan_tokens cur (p ++ c :: rest)
           = found ++ scan_tokens None rest.
Proof.
  intros Hc. revert cur. induction p as [| x p IH]; intros cur.
  - change ([] ++ c :: rest) with (c :: rest). destruct cur as [acc |].
    + exists (close_match (Some acc)). cbn [scan_tokens]. rewrite Hc.
      reflexivity.
    + exists []. cbn [scan_tokens].
      rewrite (outside_not_letter c Hc). reflexivity.
  - change ((x :: p) ++ c :: rest) with (x :: (p ++ c :: rest)).
    destruct cur as [acc |]; cbn [scan_tokens].
    + destruct (Char.is_token_char x).
      * apply IH.
      * destruct (IH None) as (found & ->).
        exists (close_match (Some acc) ++ found).
        rewrite app_assoc. reflexivity.
    + destruct (Char.is_letter x); apply IH.
Qed.

(** An open match takes the characters of the second class that follow
    and is reported at the first character outside it, or at the end. *)
Lemma scan_tokens_takes (body acc post : list ascii) :
  forallb Char.is_token_char body = true ->
  starts_outside post = true ->
  (2 <= length body + length acc)%nat ->
  ∃ found, scan_tokens (Some acc) (body ++ post)
           = rev (rev body ++ acc) :: found.
Proof.
  revert acc. induction body as [| b body IH]; intros acc Hbody Hpost Hlen.
  - change ([] ++ post) with post. change (rev [] ++ acc) with acc.
    cbn [length Nat.add] in Hlen.
    destruct acc as [| c2 [| c1 acc]]; cbn [length] in Hlen; [lia | lia |].
    destruct post as [| c r].
    + exists []. reflexivity.
    + cbn [starts_outside] in Hpost. apply negb_true_iff in Hpost.
      exists (scan_tokens None r). cbn [scan_tokens]. rewrite Hpost.
      reflexivity.
  - cbn [forallb] in Hbody. apply andb_true_iff in Hbody as [Hb Hbody].
    change ((b :: body) ++ post) with (b :: (body ++ post)).
    cbn [scan_tokens]. rewrite Hb.
    destruct (IH (b :: acc) Hbody Hpost) as (found & ->).
    { cbn [length] in Hlen |- *. lia. }
    exists found. cbn [rev]. rewrite <- app_assoc. reflexivity.
Qed.

Lemma ends_outside_cases (pre : list ascii) :
  ends_outside pre = true ->
  pre = [] ∨ ∃ p c, pre = p ++ [c] ∧ Char.is_token_char c = false.
Proof.
  unfold ends_outside. intros H.
  destruct (rev pre) as [| c r] eqn:Hrev.
  - left. apply (f_equal (@rev ascii)) in Hrev.
    rewrite rev_involutive in Hrev. exact Hrev.
  - right. exists (rev r), c. split; [| apply negb_true_iff, H].
    apply (f_equal (@rev ascii)) in Hrev.
    rewrite rev_involutive in Hrev. exact Hrev.
Qed.

Lemma scan_tokens_finds (pre w post : list ascii) :
  ends_outside pre = true ->
  is_word w = true ->
  starts_outside post = true ->
  In w (scan_tokens None (pre ++ w ++ post)).
Proof.
  intros Hpre Hw Hpost.
  destruct w as [| c r]; [discriminate Hw |].
  cbn [is_word] in Hw. apply andb_true_iff in Hw as [Hw Hr].
  apply andb_true_iff in Hw as [Hc Hne].
  assert (Hlen : (2 <= length r + length [c])%nat).
  { destruct r; [discriminate Hne | cbn [length]; lia]. }
  destruct (scan_tokens_takes r [c] post Hr Hpost Hlen) as (found & Hfound).
  assert (Hcr : rev (rev r ++ [c]) = c :: r)
    by (rewrite rev_app_distr, rev_involutive; reflexivity).
  rewrite Hcr in Hfound.
  assert (Hword : scan_tokens None ((c :: r) ++ post) = (c :: r) :: found).
  { change ((c :: r) ++ post) with (c :: (r ++ post)).
    cbn [scan_tokens]. rewrite Hc. exact Hfound. }
  destruct (ends_outside_cases pre Hpre) as [-> | (p & x & -> & Hx)].
  - change ([] ++ (c :: r) ++ post) with ((c :: r) ++ post).
    rewrite Hword. left. reflexivity.
  - rewrite <- app_assoc. change ([x] ++ (c :: r) ++ post)
      with (x :: ((c :: r) ++ post)).
    destruct (scan_tokens_reset p x ((c :: r) ++ post) None Hx)
      as (before & ->).
    rewrite Hword. apply in_or_app. right. left. reflexivity.
Qed.

(** X6.  The tokenizer misses no word: a letter followed by one or more
    characters of the token class, with nothing or a character outside
    the class before and after it, is a token of the text, in lower case,
    unless it is a stopword. *)
Theorem tokens_complete (s : string) (pre w post : list ascii) :
  chars s = pre ++ w ++ post ->
  ends_outside pre = true ->
  is_word w = true ->
  starts_outside post = true ->
  str_lower (text w) ∉ STOPWORDS ->
  str_lower (text w) ∈ _tokens s
  ∧ str_lower (text w) ∈ token_set s.
Proof.
  intros Hs Hpre Hw Hpost Hstop.
  assert (Hin : str_lower (text w) ∈ _tokens s).
  { unfold _tokens, TOKEN_RE_findall.
    apply list_elem_of_In, in_map. apply list_elem_of_In.
    apply list_elem_of_filter. split; [exact Hstop |].
    apply list_elem_of_In, in_map. rewrite Hs.
    exact (scan_tokens_finds pre w post Hpre Hw Hpost). }
  split; [exact Hin |].
  unfold token_set. apply elem_of_list_to_set. exact Hin.
Qed.

Lemma tokens_complete_witness :
  str_lower (text (chars "C++/Python")) ∈ _tokens "Senior C++/Python, remote"
  ∧ str_lower (text (chars "C++/Python"))
    ∈ token_set "Senior C++/Python, remote".
Proof.
  apply (tokens_complete "Senior C++/Python, remote"
           (chars "Senior ") (chars "C++/Python") (chars ", remote")).
  - reflexivity.
  - reflexivity.
  - reflexivity.
  - reflexivity.
  - unfold STOPWORDS. intros H. apply elem_of_list_to_set in H.
    vm_compute in H.
    repeat (apply elem_of_cons in H as [H | H]; [discriminate H |]).
    apply elem_of_nil in H. exact H.
Defined.

(** ** The scorer: bands of the overall score *)

Lemma len_empty_overlap (jd_text resume_md : string) :
  token_set jd_text ∩ token_set resume_md = ∅ ->
  len (overlap jd_text resume_md) = 0.
Proof. unfold overlap. intros ->. reflexivity. Qed.

Lemma keyword_score_no_overlap (jd_text resume_md : string) :
  token_set jd_text ∩ token_set resume_md = ∅ ->
  keyword_score jd_text resume_md = 0.
Proof.
  intros He. unfold keyword_score.
  rewrite (len_empty_overlap _ _ He). apply keyword_score_none.
Qed.

(** X7.  With a non-empty job token set the overall score falls in one of
    two bands, 30 points apart at least in their lower ends: without any
    shared token the keyword coverage is 0 and the overall score lies
    between 11 and 30; with a shared token it lies between 41 and 100. *)
Theorem overall_score_bands (jd_text resume_md : string) :
  token_set jd_text ≠ ∅ ->
  ∃ (total : Z) (breakdown : gmap string Z),
    compute_fit_score jd_text resume_md = Ok (total, breakdown)
    ∧ (token_set jd_text ∩ token_set resume_md = ∅ ->
       breakdown !! "keyword_coverage"%string = Some 0
       ∧ 11 <= total <= 30)
    ∧ (token_set jd_text ∩ token_set resume_md ≠ ∅ ->
       41 <= total <= 100).
Proof.
  intros Hne.
  destruct (total_score_agrees jd_text resume_md Hne) as (_ & Hnear & Hrange).
  pose proof (keyword_score_in_range jd_text resume_md Hne) as Hks.
  pose proof (seniority_match_values jd_text resume_md) as Hsen.
  pose proof (numeric_match_values jd_text resume_md) as Hnum.
  destruct (breakdown_lookup (keyword_score jd_text resume_md)
    (seniority_match jd_text resume_md) (numeric_match_of jd_text resume_md)
    (total_score jd_text resume_md)) as (H1 & _).
  exists (total_score jd_text resume_md),
    (breakdown_of (keyword_score jd_text resume_md)
       (seniority_match jd_text resume_md)
       (numeric_match_of jd_text resume_md)
       (total_score jd_text resume_md)).
  split; [apply compute_fit_score_nonempty, Hne |].
  unfold has_any_overlap in Hnear.
  destruct (decide (token_set jd_text ∩ token_set resume_md = ∅)) as [He | Hov].
  - split; [| intros Hc; contradiction].
    intros _. pose proof (keyword_score_no_overlap _ _ He) as Hz.
    split; [rewrite H1; f_equal; exact Hz | lia].
  - split; [intros Hc; contradiction |]. intros _. lia.
Qed.

Lemma overall_score_bands_witness :
  ∃ (total : Z) (breakdown : gmap string Z),
    compute_fit_score "Senior Engineer role" "Junior Developer"
    = Ok (total, breakdown)
    ∧ (token_set "Senior Engineer role" ∩ token_set "Junior Developer" = ∅ ->
       breakdown !! "keyword_coverage"%string = Some 0
       ∧ 11 <= total <= 30)
    ∧ (token_set "Senior Engineer role" ∩ token_set "Junior Developer" ≠ ∅ ->
       41 <= total <= 100).
Proof.
  apply (overall_score_bands "Senior Engineer role" "Junior Developer").
  apply token_set_nonempty. vm_compute. discriminate.
Defined.

(** ** The scorer: a résumé that covers the job description *)

Lemma weighted_total_covering :
  weighted_total 100 100 100 true = 100
  ∧ weighted_total 100 100 80 true = 98
  ∧ weighted_total 100 100 30 true = 93.
Proof. vm_compute. repeat split. Qed.

Lemma seniority_aligned_subset (jd_tokens res_tokens : gset string) :
  jd_tokens ⊆ res_tokens -> seniority_aligned jd_tokens res_tokens.
Proof.
  intros Hsub. unfold seniority_aligned.
  destruct (decide (Exists (fun s => s ∈ jd_tokens) SENIORITY)) as [He | Hn].
  - right. apply Exists_exists in He as (s & Hin & Hs).
    exists s. split; [exact Hin |]. split; [exact Hs | apply Hsub, Hs].
  - left. intros s Hin Hs. apply Hn. apply Exists_exists.
    exists s. split; [exact Hin | exact Hs].
Qed.

Lemma overlap_subset_pos (jd_text resume_md : string) :
  token_set jd_text ≠ ∅ ->
  token_set jd_text ⊆ token_set resume_md ->
  (0 <? len (overlap jd_text resume_md)) = true.
Proof.
  intros Hne Hsub. unfold overlap.
  rewrite len_overlap_full by exact Hsub.
  apply Z.ltb_lt. apply len_pos, Hne.
Qed.

Lemma covering_resume_total (jd_text resume_md : string) :
  token_set jd_text ≠ ∅ ->
  token_set jd_text ⊆ token_set resume_md ->
  compute_fit_score jd_text resume_md
  = Ok (total_score jd_text resume_md,
        breakdown_of 100 100 (numeric_match_of jd_text resume_md)
          (total_score jd_text resume_md))
  ∧ total_score jd_text resume_md
    = weighted_total 100 100 (numeric_match_of jd_text resume_md) true.
Proof.
  intros Hne Hsub.
  pose proof (keyword_score_full_overlap _ _ Hne Hsub) as Hks.
  pose proof (proj1 (seniority_match_of_spec _ _)
                (seniority_aligned_subset _ _ Hsub)) as Hsen.
  fold (seniority_match jd_text resume_md) in Hsen.
  pose proof (overlap_subset_pos _ _ Hne Hsub) as Hov.
  pose proof (compute_fit_score_nonempty jd_text resume_md Hne) as Hc.
  rewrite Hks, Hsen in Hc.
  split; [exact Hc |].
  unfold total_score. rewrite Hks, Hsen, Hov. reflexivity.
Qed.

(** X8.  When every job token occurs in the résumé (and there is one), the
    keyword coverage and the seniority alignment are both 100, and the
    overall score is 90 plus a tenth of the numeric alignment: 100, 98
    or 93. *)
Theorem covering_resume_score (jd_text resume_md : string) :
  token_set jd_text ≠ ∅ ->
  token_set jd_text ⊆ token_set resume_md ->
  ∃ total numeric : Z,
    compute_fit_score jd_text resume_md
    = Ok (total, breakdown_of 100 100 numeric total)
    ∧ numeric = numeric_match_of jd_text resume_md
    ∧ 10 * total = 900 + numeric
    ∧ (total = 100 ∨ total = 98 ∨ total = 93).
Proof.
  intros Hne Hsub.
  destruct (covering_resume_total _ _ Hne Hsub) as (Hc & Ht).
  exists (total_score jd_text resume_md), (numeric_match_of jd_text resume_md).
  split; [exact Hc |]. split; [reflexivity |].
  destruct weighted_total_covering as (T100 & T80 & T30).
  destruct (numeric_match_values jd_text resume_md) as [Hn | [Hn | Hn]];
    rewrite Hn in Ht |- *.
  - rewrite T30 in Ht. lia.
  - rewrite T80 in Ht. lia.
  - rewrite T100 in Ht. lia.
Qed.

Lemma covering_resume_score_witness :
  ∃ total numeric : Z,
    compute_fit_score "Senior engineer, 5 years" "Engineer (senior) for years"
    = Ok (total, breakdown_of 100 100 numeric total)
    ∧ numeric = numeric_match_of "Senior engineer, 5 years"
                  "Engineer (senior) for years"
    ∧ 10 * total = 900 + numeric
    ∧ (total = 100 ∨ total = 98 ∨ total = 93).
Proof.
  apply (covering_resume_score "Senior engineer, 5 years"
           "Engineer (senior) for years").
  - apply token_set_nonempty. vm_compute. discriminate.
  - unfold token_set. intros t Ht.
    apply elem_of_list_to_set in Ht. apply elem_of_list_to_set.
    assert (E1 : _tokens "Senior engineer, 5 years"
                 = ["senior"; "engineer"; "years"]%string)
      by (vm_compute; reflexivity).
    assert (E2 : _tokens "Engineer (senior) for years"
                 = ["engineer"; "senior"; "years"]%string)
      by (vm_compute; reflexivity).
    rewrite E1 in Ht. rewrite E2. clear E1 E2.
    repeat (apply elem_of_cons in Ht as [-> | Ht];
            [repeat constructor |]).
    apply elem_of_nil in Ht. destruct Ht.
Defined.

(** X9.  A text scored against itself, when it has a token, gets keyword
    coverage 100 and seniority alignment 100; the overall score is 100
    when the text mentions no years figure and 98 when it does. *)
Theorem self_score (s : string) :
  token_set s ≠ ∅ ->
  (¬ mentions_years s ->
   compute_fit_score s s = Ok (100, breakdown_of 100 100 100 100))
  ∧ (mentions_years s ->
     compute_fit_score s s = Ok (98, breakdown_of 100 100 80 98)).
Proof.
  intros Hne.
  destruct (covering_resume_total s s Hne (reflexivity _))
    as (Hc & Ht).
  destruct (numeric_match_of_spec s s) as (N100 & N80 & _).
  destruct weighted_total_covering as (T100 & T80 & _).
  split; intros Hy.
  - rewrite Hc, Ht, (N100 Hy), T100. reflexivity.
  - rewrite Hc, Ht, (N80 Hy Hy), T80. reflexivity.
Qed.

Lemma self_score_witness :
  (¬ mentions_years "Senior engineer, Python" ->
   compute_fit_score "Senior engineer, Python" "Senior engineer, Python"
   = Ok (100, breakdown_of 100 100 100 100))
  ∧ (mentions_years "Senior engineer, Python" ->
     compute_fit_score "Senior engineer, Python" "Senior engineer, Python"
     = Ok (98, breakdown_of 100 100 80 98)).
Proof.
  apply (self_score "Senior engineer, Python").
  apply token_set_nonempty. vm_compute. discriminate.
Defined.

(** ** The scorer: a résumé that says more never scores lower *)

Lemma len_token_set_le (s : string) :
  len (token_set s) <= Z.of_nat (length (_tokens s)).
Proof.
  unfold len, token_set. apply inj_le.
  induction (_tokens s) as [| t l IH]; [reflexivity |].
  rewrite list_to_set_cons, size_union_alt, size_singleton.
  pose proof (subseteq_size (list_to_set l ∖ {[t]}) (list_to_set l :
                gset string) ltac:(set_solver)) as Hd.
  cbn [length]. lia.
Qed.

Lemma len_overlap_mono (a b b' : gset string) :
  b ⊆ b' -> len (a ∩ b) <= len (a ∩ b').
Proof.
  intros Hsub. unfold len. apply inj_le. apply subseteq_size. set_solver.
Qed.

Lemma keyword_score_of_len (jd_text resume_md resume_md' : string) :
  len (overlap jd_text resume_md) = len (overlap jd_text resume_md') ->
  keyword_score jd_text resume_md = keyword_score jd_text resume_md'.
Proof. unfold keyword_score. intros ->. reflexivity. Qed.

Lemma keyword_score_mono (jd_text resume_md resume_md' : string) :
  token_set jd_text ≠ ∅ ->
  len (token_set jd_text) < 2 ^ 44 ->
  token_set resume_md ⊆ token_set resume_md' ->
  keyword_score jd_text resume_md <= keyword_score jd_text resume_md'.
Proof.
  intros Hne Hsmall Hsub.
  pose proof (keyword_score_is_nearest jd_text resume_md Hne Hsmall) as H1.
  pose proof (keyword_score_is_nearest jd_text resume_md' Hne Hsmall) as H2.
  pose proof (len_overlap_mono (token_set jd_text) _ _ Hsub) as Hk.
  fold (overlap jd_text resume_md) in Hk.
  fold (overlap jd_text resume_md') in Hk.
  pose proof (len_pos _ Hne) as Hn.
  destruct (Z.eq_dec (len (overlap jd_text resume_md))
              (len (overlap jd_text resume_md'))) as [He | Hlt].
  - rewrite (keyword_score_of_len _ _ _ He). lia.
  - set (n := len (token_set jd_text)) in *.
    set (k := len (overlap jd_text resume_md)) in *.
    set (k' := len (overlap jd_text resume_md')) in *.
    set (s := keyword_score jd_text resume_md) in *.
    set (s' := keyword_score jd_text resume_md') in *.
    clearbody n k k' s s'. nia.
Qed.

Lemma seniority_match_mono (jd_text resume_md resume_md' : string) :
  token_set resume_md ⊆ token_set resume_md' ->
  seniority_match jd_text resume_md <= seniority_match jd_text resume_md'.
Proof.
  intros Hsub. unfold seniority_match.
  destruct (seniority_match_of_spec (token_set jd_text) (token_set resume_md))
    as [_ H40].
  destruct (seniority_match_of_spec (token_set jd_text) (token_set resume_md'))
    as [H100 _].
  destruct (seniority_match_values jd_text resume_md) as [Hv | Hv];
    destruct (seniority_match_values jd_text resume_md') as [Hv' | Hv'];
    unfold seniority_match in Hv, Hv'; rewrite Hv, Hv'; try lia.
  exfalso.
  assert (Hal : seniority_aligned (token_set jd_text) (token_set resume_md)).
  { destruct (decide (Exists (fun s => s ∈ token_set jd_text) SENIORITY))
      as [He | Hn].
    - destruct (decide (Exists (fun s => s ∈ token_set jd_text
                                         ∧ s ∈ token_set resume_md)
                          SENIORITY)) as [Hb | Hnb].
      + right. apply Exists_exists in Hb as (s & Hin & Hj & Hr).
        exists s. split; [exact Hin |]. split; [exact Hj | exact Hr].
      + exfalso. rewrite H40 in Hv; [lia |].
        intros [Hnone | (s & Hin & Hj & Hr)].
        * apply Exists_exists in He as (s & Hin & Hj).
          exact (Hnone s Hin Hj).
        * apply Hnb. apply Exists_exists. exists s.
          split; [exact Hin |]. split; [exact Hj | exact Hr].
    - left. intros s Hin Hs. apply Hn. apply Exists_exists.
      exists s. split; [exact Hin | exact Hs]. }
  assert (Hal' : seniority_aligned (token_set jd_text) (token_set resume_md')).
  { destruct Hal as [Hnone | (s & Hin & Hj & Hr)]; [left; exact Hnone |].
    right. exists s. split; [exact Hin |]. split; [exact Hj |].
    apply Hsub, Hr. }
  rewrite (H100 Hal') in Hv'. lia.
Qed.

Lemma numeric_match_mono (jd_text resume_md resume_md' : string) :
  (mentions_years resume_md -> mentions_years resume_md') ->
  numeric_match_of jd_text resume_md <= numeric_match_of jd_text resume_md'.
Proof.
  intros Hy. pose proof (findall_years_truthy resume_md) as T.
  pose proof (findall_years_truthy resume_md') as T'.
  unfold numeric_match_of.
  destruct (negb (truthy (re_findall_years (str_lower jd_text)))); [lia |].
  destruct (truthy (re_findall_years (str_lower resume_md))).
  - rewrite (proj2 T' (Hy (proj1 T eq_refl))). lia.
  - destruct (truthy (re_findall_years (str_lower resume_md'))); lia.
Qed.

Lemma has_any_overlap_mono (a b b' : gset string) :
  b ⊆ b' -> 0 <= has_any_overlap a b <= has_any_overlap a b'
            ∧ has_any_overlap a b' <= 1.
Proof.
  intros Hsub. unfold has_any_overlap.
  destruct (decide (a ∩ b = ∅)) as [He | Hne];
    destruct (decide (a ∩ b' = ∅)) as [He' | Hne']; try lia.
  exfalso. apply Hne. set_solver.
Qed.


Lemma breakdown_of_le (a b c d a' b' c' d' : Z) :
  a <= a' -> b <= b' -> c <= c' -> d <= d' ->
  ∀ (key : string) (v v' : Z),
    breakdown_of a b c d !! key = Some v ->
    breakdown_of a' b' c' d' !! key = Some v' -> v <= v'.
Proof.
  intros Ha Hb Hc Hd key v v'. unfold breakdown_of.
  destruct (decide (key = "keyword_coverage"%string)) as [-> | N1].
  { rewrite !lookup_insert_eq. intros [= <-] [= <-]. exact Ha. }
  rewrite !(lookup_insert_ne _ "keyword_coverage"%string) by congruence.
  destruct (decide (key = "seniority"%string)) as [-> | N2].
  { rewrite !lookup_insert_eq. intros [= <-] [= <-]. exact Hb. }
  rewrite !(lookup_insert_ne _ "seniority"%string) by congruence.
  destruct (decide (key = "numeric"%string)) as [-> | N3].
  { rewrite !lookup_insert_eq. intros [= <-] [= <-]. exact Hc. }
  rewrite !(lookup_insert_ne _ "numeric"%string) by congruence.
  destruct (decide (key = "overall"%string)) as [-> | N4].
  { rewrite !lookup_singleton_eq. intros [= <-] [= <-]. exact Hd. }
  rewrite !lookup_singleton_ne by congruence. discriminate.
Qed.

Lemma nearest_total_mono (t t' ks ks' sen sen' num num' h h' : Z) :
  Z.abs (10 * t - (4 * ks + 2 * sen + num + 300 * h)) < 5 ->
  Z.abs (10 * t' - (4 * ks' + 2 * sen' + num' + 300 * h')) < 5 ->
  ks <= ks' -> sen <= sen' -> num <= num' -> h <= h' -> t <= t'.
Proof. lia. Qed.

(** X10.  A résumé that says more never scores lower: when every token of
    one résumé is a token of a second one, which mentions a years figure
    if the first does, every entry of the breakdown and the overall score
    of the second are at least those of the first (for a job description
    of fewer than 2^44 distinct tokens). *)
Theorem richer_resume_scores_no_lower
    (jd_text resume_md resume_md' : string) :
  token_set jd_text ≠ ∅ ->
  len (token_set jd_text) < 2 ^ 44 ->
  token_set resume_md ⊆ token_set resume_md' ->
  (mentions_years resume_md -> mentions_years resume_md') ->
  ∃ (total total' : Z) (breakdown breakdown' : gmap string Z),
    compute_fit_score jd_text resume_md = Ok (total, breakdown)
    ∧ compute_fit_score jd_text resume_md' = Ok (total', breakdown')
    ∧ total <= total'
    ∧ ∀ (key : string) (v v' : Z),
        breakdown !! key = Some v -> breakdown' !! key = Some v' -> v <= v'.
Proof.
  intros Hne Hsmall Hsub Hy.
  pose proof (keyword_score_mono _ _ _ Hne Hsmall Hsub) as Hks.
  pose proof (seniority_match_mono jd_text _ _ Hsub) as Hsen.
  pose proof (numeric_match_mono jd_text _ _ Hy) as Hnum.
  destruct (has_any_overlap_mono (token_set jd_text) _ _ Hsub) as [[_ Hov] _].
  destruct (total_score_agrees jd_text resume_md Hne) as (_ & Hn & _).
  destruct (total_score_agrees jd_text resume_md' Hne) as (_ & Hn' & _).
  pose proof (nearest_total_mono _ _ _ _ _ _ _ _ _ _ Hn Hn' Hks Hsen Hnum Hov)
    as Ht.
  exists (total_score jd_text resume_md), (total_score jd_text resume_md'),
    (breakdown_of (keyword_score jd_text resume_md)
       (seniority_match jd_text resume_md)
       (numeric_match_of jd_text resume_md)
       (total_score jd_text resume_md)),
    (breakdown_of (keyword_score jd_text resume_md')
       (seniority_match jd_text resume_md')
       (numeric_match_of jd_text resume_md')
       (total_score jd_text resume_md')).
  split; [exact (compute_fit_score_nonempty jd_text resume_md Hne) |].
  split; [exact (compute_fit_score_nonempty jd_text resume_md' Hne) |].
  split; [exact Ht |].
  exact (breakdown_of_le _ _ _ _ _ _ _ _ Hks Hsen Hnum Ht).
Qed.

Lemma richer_resume_scores_no_lower_witness :
  ∃ (total total' : Z) (breakdown breakdown' : gmap string Z),
    compute_fit_score "Senior Python engineer, 5 years" "Python"
    = Ok (total, breakdown)
    ∧ compute_fit_score "Senior Python engineer, 5 years"
        "Senior Python developer with 6 years"
      = Ok (total', breakdown')
    ∧ total <= total'
    ∧ ∀ (key : string) (v v' : Z),
        breakdown !! key = Some v -> breakdown' !! key = Some v' -> v <= v'.
Proof.
  apply (richer_resume_scores_no_lower "Senior Python engineer, 5 years"
           "Python" "Senior Python developer with 6 years").
  - apply token_set_nonempty. vm_compute. discriminate.
  - apply (Z.le_lt_trans _ _ _
             (len_token_set_le "Senior Python engineer, 5 years")).
    vm_compute. reflexivity.
  - unfold token_set. intros t Ht.
    apply elem_of_list_to_set in Ht. apply elem_of_list_to_set.
    assert (E1 : _tokens "Python" = ["python"]%string)
      by (vm_compute; reflexivity).
    assert (E2 : _tokens "Senior Python developer with 6 years"
                 = ["senior"; "python"; "developer"; "years"]%string)
      by (vm_compute; reflexivity).
    rewrite E1 in Ht. rewrite E2. clear E1 E2.
    repeat (apply elem_of_cons in Ht as [-> | Ht];
            [repeat constructor |]).
    apply elem_of_nil in Ht. destruct Ht.
  - intros _.
    exists (chars "senior python developer with "), (chars "6 years").
    split; [reflexivity |].
    exists (chars "6"), (chars " "), [].
    split; [reflexivity |].
    split; [discriminate |]. split; [repeat constructor |].
    split; [discriminate | repeat constructor].
Defined.

(** ** The FitScore report of [main] *)

Lemma print_fit_score_breakdown (a b c d : Z) (out : list line) :
  print_fit_score (breakdown_of a b c d) out
  = (out ++ [FitScore_header; Overall d; Keyword_coverage a;
             Seniority_match b; Numeric_match c], inr tt).
Proof.
  destruct (breakdown_lookup a b c d) as (Ha & Hb & Hc & Hd).
  unfold print_fit_score, mbind, io_bind, getitem, print.
  rewrite Hd, Ha, Hb, Hc. repeat rewrite <- app_assoc. reflexivity.
Qed.

Lemma print_fit_score_missing (details : gmap string Z) (out : list line) :
  details !! "overall"%string = None ->
  print_fit_score details out
  = (out ++ [FitScore_header], inl (KeyError_of "overall")).
Proof.
  intros Hd. unfold print_fit_score, mbind, io_bind, getitem, print.
  rewrite Hd. reflexivity.
Qed.

(** X11.  The report that [main] prints after scoring: when the job text
    has no token the breakdown is empty and the report stops at its first
    line with the error [KeyError 'overall']; otherwise the four figures
    are printed, the overall one being the returned score, each within its
    range. *)
Theorem main_report_after_scoring (job_text tailored_resume_md : string) :
  (token_set job_text = ∅ ->
   main_fit_score_report job_text tailored_resume_md
   = [FitScore_header; Error_saving_files (KeyError_of "overall")])
  ∧ (token_set job_text ≠ ∅ ->
     ∃ (score keyword_coverage seniority numeric : Z)
       (details : gmap string Z),
       compute_fit_score job_text tailored_resume_md = Ok (score, details)
       ∧ main_fit_score_report job_text tailored_resume_md
         = [FitScore_header; Overall score; Keyword_coverage keyword_coverage;
            Seniority_match seniority; Numeric_match numeric]
       ∧ 0 <= score <= 100
       ∧ 0 <= keyword_coverage <= 100
       ∧ (seniority = 40 ∨ seniority = 100)
       ∧ (numeric = 30 ∨ numeric = 80 ∨ numeric = 100)).
Proof.
  split; intros H.
  - unfold main_fit_score_report.
    rewrite (compute_fit_score_empty _ _ H).
    unfold try_except.
    rewrite (print_fit_score_missing ∅ []) by apply lookup_empty.
    reflexivity.
  - pose proof (compute_fit_score_nonempty job_text tailored_resume_md H)
      as Hc.
    destruct (total_score_agrees job_text tailored_resume_md H)
      as (_ & _ & Hrange).
    exists (total_score job_text tailored_resume_md),
      (keyword_score job_text tailored_resume_md),
      (seniority_match job_text tailored_resume_md),
      (numeric_match_of job_text tailored_resume_md),
      (breakdown_of (keyword_score job_text tailored_resume_md)
         (seniority_match job_text tailored_resume_md)
         (numeric_match_of job_text tailored_resume_md)
         (total_score job_text tailored_resume_md)).
    split; [exact Hc |].
    split.
    { unfold main_fit_score_report. rewrite Hc. unfold try_except.
      rewrite print_fit_score_breakdown. reflexivity. }
    split; [exact Hrange |].
    split; [exact (keyword_score_in_range _ _ H) |].
    split; [exact (seniority_match_values _ _) |].
    exact (numeric_match_values _ _).
Qed.

Lemma main_report_after_scoring_witness :
  main_fit_score_report "a b c 1 2 3" "Senior engineer"
  = [FitScore_header; Error_saving_files (KeyError_of "overall")].
Proof.
  apply (proj1 (main_report_after_scoring "a b c 1 2 3" "Senior engineer")).
  apply token_set_empty. vm_compute. reflexivity.
Defined.

(** ** The extractor's fallback in [replit_app.py] *)

Lemma contains_blank_line_cons (c c' : ascii) (r : list ascii) :
  contains_blank_line (c :: c' :: r)
  = (Ascii.eqb c newline && Ascii.eqb c' newline)
    || contains_blank_line (c' :: r).
Proof. reflexivity. Qed.

Lemma split_no_blank_line (l cur : list ascii) :
  contains_blank_line l = false ->
  split_blank_lines cur l = [rev cur ++ l].
Proof.
  revert cur. induction l as [| c rest IH]; intros cur Hb.
  - cbn [split_blank_lines]. rewrite app_nil_r. reflexivity.
  - destruct rest as [| c' rest'].
    + reflexivity.
    + rewrite contains_blank_line_cons in Hb. apply orb_false_iff in Hb as [Hcc Hb].
      change (split_blank_lines cur (c :: c' :: rest'))
        with (if Ascii.eqb c newline && Ascii.eqb c' newline
              then rev cur :: split_blank_lines [] rest'
              else split_blank_lines (c :: cur) (c' :: rest')).
      rewrite Hcc. rewrite (IH (c :: cur) Hb). cbn [rev]. rewrite <- app_assoc.
      reflexivity.
Qed.

Lemma newline_is_space : Char.is_space newline = true.
Proof. reflexivity. Qed.

Lemma eqb_newline_space (c : ascii) :
  Char.is_space c = false -> Ascii.eqb c newline = false.
Proof.
  intros Hc. destruct (Ascii.eqb_spec c newline) as [-> |]; [| reflexivity].
  rewrite newline_is_space in Hc. discriminate Hc.
Qed.

(** Gluing two pieces with one newline makes no blank line, when the
    first ends and the second starts with a character that is not white
    space. *)
Lemma glue_no_blank_line (p : list ascii) (c : ascii) (r : list ascii) :
  p ≠ [] ->
  (∀ z p0, p = p0 ++ [z] -> Char.is_space z = false) ->
  contains_blank_line p = false ->
  Char.is_space c = false ->
  contains_blank_line (c :: r) = false ->
  contains_blank_line (p ++ newline :: c :: r) = false.
Proof.
  intros Hne Hlast Hp Hc Hr.
  induction p as [| x p IH]; [congruence |].
  destruct p as [| y p'].
  - pose proof (Hlast x [] eq_refl) as Hx.
    change (([x] ++ newline :: c :: r)) with (x :: newline :: c :: r).
    rewrite !contains_blank_line_cons.
    rewrite (eqb_newline_space x Hx), (eqb_newline_space c Hc).
    rewrite andb_false_r. cbn [andb orb]. exact Hr.
  - rewrite contains_blank_line_cons in Hp.
    apply orb_false_iff in Hp as [Hxy Hp].
    change ((x :: y :: p') ++ newline :: c :: r)
      with (x :: y :: (p' ++ newline :: c :: r)).
    rewrite contains_blank_line_cons. rewrite Hxy. cbn [orb].
    change (y :: (p' ++ newline :: c :: r))
      with ((y :: p') ++ newline :: c :: r).
    apply IH; [discriminate | | exact Hp].
    intros z p0 Hz. apply (Hlast z (x :: p0)). rewrite Hz. reflexivity.
Qed.

Lemma join_head (sep : list ascii) (c : ascii) (r : list ascii)
    (more : list (list ascii)) :
  ∃ r', join sep ((c :: r) :: more) = c :: r'.
Proof.
  destruct more as [| m more'].
  - exists r. reflexivity.
  - eexists. reflexivity.
Qed.

Lemma join_no_blank_line (parts : list (list ascii)) :
  Forall (fun p => p ≠ [] ∧ no_outer_space p
                   ∧ contains_blank_line p = false) parts ->
  contains_blank_line (join [newline] parts) = false.
Proof.
  induction 1 as [| p more (Hne & (Hhead & Hlast) & Hp) Hmore IH];
    [reflexivity |].
  destruct more as [| m more']; [exact Hp |].
  apply Forall_inv in Hmore as Hm. destruct Hm as (Hmne & (Hmhead & _) & _).
  destruct m as [| c r]; [congruence |].
  destruct (join_head [newline] c r more') as (r' & Hj).
  change (join [newline] (p :: (c :: r) :: more'))
    with (p ++ [newline] ++ join [newline] ((c :: r) :: more')).
  rewrite Hj in IH |- *.
  apply glue_no_blank_line;
    [exact Hne | exact Hlast | exact Hp | exact (Hmhead c r eq_refl) | exact IH].
Qed.

Lemma max_by_len_singleton (x : string) : max_by_len [x] = Some x.
Proof. reflexivity. Qed.

(** X13.  The fallback of [replit_app.py] never picks a paragraph when no
    text node of the page, stripped, contains a blank line: the text that
    [get_text] builds then has no blank line, the split yields the whole
    text as its one piece, and the whole text, normalized, is returned,
    whatever the lengths of the nodes. *)
Theorem replit_fallback_whole_page (nodes : list string) :
  (∀ n : string, n ∈ nodes ->
     contains_blank_line (strip_chars (chars n)) = false) ->
  str_split_blank_lines (get_text nodes) = [get_text nodes]
  ∧ fallback_replit_app nodes = _strip_html (get_text nodes).
Proof.
  intros Hnodes.
  assert (Hsplit : str_split_blank_lines (get_text nodes) = [get_text nodes]).
  { unfold str_split_blank_lines, get_text. rewrite chars_text.
    rewrite split_no_blank_line; [reflexivity |].
    apply join_no_blank_line. apply Forall_forall. intros p Hin.
    apply list_elem_of_filter in Hin as [Hne Hin].
    apply list_elem_of_In, in_map_iff in Hin as (n & <- & Hn).
    apply list_elem_of_In in Hn.
    split; [exact Hne |]. split; [| exact (Hnodes n Hn)].
    destruct (strip_chars_spec (chars n)) as (? & ? & _ & _ & _ & Ho).
    exact Ho. }
  split; [exact Hsplit |].
  unfold fallback_replit_app. rewrite Hsplit, max_by_len_singleton.
  destruct (100 <? String.length (get_text nodes))%nat; reflexivity.
Qed.

Lemma replit_fallback_whole_page_witness :
  str_split_blank_lines (get_text ["About us"; "  "; paragraph 120 "y"])
  = [get_text ["About us"; "  "; paragraph 120 "y"]]
  ∧ fallback_replit_app ["About us"; "  "; paragraph 120 "y"]
    = _strip_html (get_text ["About us"; "  "; paragraph 120 "y"]).
Proof.
  apply (replit_fallback_whole_page ["About us"; "  "; paragraph 120 "y"]).
  intros n Hn.
  repeat (apply elem_of_cons in Hn as [-> | Hn];
          [vm_compute; reflexivity |]).
  apply elem_of_nil in Hn. destruct Hn.
Defined.

(** ** [clean_company_name] *)

Lemma underscore_classes :
  is_separator underscore = true ∧ is_name_char underscore = true.
Proof. split; reflexivity. Qed.

Lemma re_split_nonempty (s cur : list ascii) (in_run : bool) :
  re_split_separators cur in_run s ≠ [].
Proof.
  revert cur in_run. induction s as [| c rest IH]; intros cur in_run.
  - discriminate.
  - cbn [re_split_separators]. destruct (is_separator c).
    + destruct in_run; [apply IH | discriminate].
    + apply IH.
Qed.

(** No piece of the split holds a separator. *)
Lemma re_split_pieces (s cur : list ascii) (in_run : bool) :
  Forall (fun c => is_separator c = false) cur ->
  Forall (Forall (fun c => is_separator c = false))
    (re_split_separators cur in_run s).
Proof.
  revert cur in_run. induction s as [| c rest IH]; intros cur in_run Hcur.
  - cbn [re_split_separators]. constructor; [| constructor].
    apply Forall_rev, Hcur.
  - cbn [re_split_separators]. destruct (is_separator c) eqn:Hc.
    + destruct in_run; [apply IH, Hcur |].
      constructor; [apply Forall_rev, Hcur | apply IH; constructor].
    + apply IH. constructor; [exact Hc | exact Hcur].
Qed.

Lemma re_split_no_separator (s cur : list ascii) :
  Forall (fun c => is_separator c = false) s ->
  re_split_separators cur false s = [rev cur ++ s].
Proof.
  revert cur. induction s as [| c rest IH]; intros cur Hs.
  - cbn [re_split_separators]. rewrite app_nil_r. reflexivity.
  - apply Forall_cons in Hs as [Hc Hrest].
    cbn [re_split_separators]. rewrite Hc. rewrite (IH (c :: cur) Hrest).
    cbn [rev]. rewrite <- app_assoc. reflexivity.
Qed.

Lemma re_split_after_run (s : list ascii) :
  Forall (fun c => is_separator c = false) s ->
  re_split_separators [] true s = [s].
Proof.
  intros Hs. destruct s as [| c rest]; [reflexivity |].
  apply Forall_cons in Hs as [Hc Hrest].
  cbn [re_split_separators]. rewrite Hc.
  rewrite (re_split_no_separator rest [c] Hrest). reflexivity.
Qed.

Lemma re_split_two (p0 p1 cur : list ascii) :
  Forall (fun c => is_separator c = false) p0 ->
  Forall (fun c => is_separator c = false) p1 ->
  re_split_separators cur false (p0 ++ underscore :: p1)
  = [rev cur ++ p0; p1].
Proof.
  revert cur. induction p0 as [| c rest IH]; intros cur H0 H1.
  - change ([] ++ underscore :: p1) with (underscore :: p1).
    cbn [re_split_separators].
    rewrite (proj1 underscore_classes), (re_split_after_run p1 H1).
    rewrite app_nil_r. reflexivity.
  - apply Forall_cons in H0 as [Hc Hrest].
    change ((c :: rest) ++ underscore :: p1)
      with (c :: (rest ++ underscore :: p1)).
    cbn [re_split_separators]. rewrite Hc.
    rewrite (IH (c :: cur) Hrest H1). cbn [rev]. rewrite <- app_assoc.
    reflexivity.
Qed.

Lemma filter_name_plain (l : list ascii) :
  Forall (fun c => is_separator c = false) l ->
  plain (List.filter is_name_char l).
Proof.
  intros Hl. apply Forall_forall. intros c Hc.
  apply list_elem_of_In, filter_In in Hc as [Hin Hn].
  split; [exact Hn |].
  rewrite Forall_forall in Hl. apply Hl, list_elem_of_In, Hin.
Qed.

Lemma filter_name_id (l : list ascii) :
  Forall (fun c => is_name_char c = true) l ->
  List.filter is_name_char l = l.
Proof.
  induction 1 as [| c l Hc _ IH]; [reflexivity |].
  cbn [List.filter]. rewrite Hc, IH. reflexivity.
Qed.

Lemma filter_length_le (f : ascii -> bool) (l : list ascii) :
  (length (List.filter f l) <= length l)%nat.
Proof.
  induction l as [| c l IH]; [reflexivity |].
  cbn [List.filter]. destruct (f c); cbn [length]; lia.
Qed.

Lemma plain_names (l : list ascii) :
  plain l -> Forall (fun c => is_name_char c = true) l.
Proof.
  unfold plain. intros H. apply (Forall_impl _ _ _ H).
  intros c [Hc _]. exact Hc.
Qed.

Lemma plain_no_separator (l : list ascii) :
  plain l -> Forall (fun c => is_separator c = false) l.
Proof.
  unfold plain. intros H. apply (Forall_impl _ _ _ H).
  intros c [_ Hc]. exact Hc.
Qed.

Lemma plain_underscores (l : list ascii) : plain l -> underscores l = 0%nat.
Proof.
  unfold underscores. induction 1 as [| c l [_ Hc] _ IH]; [reflexivity |].
  cbn [List.filter]. destruct (Ascii.eqb_spec underscore c) as [<- |].
  - rewrite (proj1 underscore_classes) in Hc. discriminate Hc.
  - exact IH.
Qed.

Lemma underscores_app (a b : list ascii) :
  underscores (a ++ b) = (underscores a + underscores b)%nat.
Proof. unfold underscores. rewrite List.filter_app, length_app. reflexivity. Qed.

(** The two shapes of a cleaned name: one plain piece of at most 20
    characters, or two plain pieces, the first shorter than 8 and both
    together shorter than 15, joined by an underscore. *)
Lemma clean_company_name_shape (company_name : string) :
  ∃ name : list ascii,
    clean_company_name company_name = text name
    ∧ ((plain name ∧ (length name <= 20)%nat)
       ∨ (∃ q0 q1 : list ascii,
            name = q0 ++ underscore :: q1 ∧ plain q0 ∧ plain q1
            ∧ (length q0 < 8)%nat ∧ (length q0 + length q1 < 15)%nat)).
Proof.
  unfold clean_company_name.
  pose proof (re_split_nonempty (chars company_name) [] false) as Hne.
  pose proof (re_split_pieces (chars company_name) [] false
                (List.Forall_nil _)) as Hpieces.
  destruct (re_split_separators [] false (chars company_name))
    as [| part0 more]; [congruence |].
  apply Forall_cons in Hpieces as [H0 Hmore].
  assert (Hone : ∃ name : list ascii,
    text (if (20 <? length (List.filter is_name_char part0))%nat
          then firstn 20 (List.filter is_name_char part0)
          else List.filter is_name_char part0) = text name
    ∧ ((plain name ∧ (length name <= 20)%nat)
       ∨ (∃ q0 q1 : list ascii,
            name = q0 ++ underscore :: q1 ∧ plain q0 ∧ plain q1
            ∧ (length q0 < 8)%nat ∧ (length q0 + length q1 < 15)%nat))).
  { pose proof (filter_name_plain part0 H0) as Hp.
    destruct (Nat.ltb_spec 20 (length (List.filter is_name_char part0))).
    - eexists. split; [reflexivity |]. left.
      split; [apply Forall_take, Hp | apply firstn_le_length].
    - eexists. split; [reflexivity |]. left. split; [exact Hp | lia]. }
  destruct (Nat.leb_spec 8 (length part0)) as [_ | Hshort]; [exact Hone |].
  destruct more as [| part1 more']; [exact Hone |].
  destruct (Nat.ltb_spec (length part0 + length part1) 15) as [Hsum | _];
    [| exact Hone].
  apply Forall_cons in Hmore as [H1 _].
  rewrite List.filter_app. cbn [List.filter].
  rewrite (proj2 underscore_classes).
  pose proof (filter_length_le is_name_char part0) as L0.
  pose proof (filter_length_le is_name_char part1) as L1.
  set (q0 := List.filter is_name_char part0) in *.
  set (q1 := List.filter is_name_char part1) in *.
  assert (Hlen : (20 <? length (q0 ++ underscore :: q1))%nat = false).
  { apply Nat.ltb_ge. rewrite length_app. cbn [length]. lia. }
  rewrite Hlen. eexists. split; [reflexivity |]. right.
  exists q0, q1. split; [reflexivity |].
  split; [apply filter_name_plain, H0 |].
  split; [apply filter_name_plain, H1 |]. lia.
Qed.

(** X14.  A cleaned company name is fit for a file name: its characters
    are letters a-z and A-Z, digits and underscores only, it has at most
    20 characters, and at most one underscore. *)
Theorem clean_company_name_safe (company_name : string) :
  Forall (fun c => is_name_char c = true)
    (chars (clean_company_name company_name))
  ∧ (String.length (clean_company_name company_name) <= 20)%nat
  ∧ (underscores (chars (clean_company_name company_name)) <= 1)%nat.
Proof.
  destruct (clean_company_name_shape company_name)
    as (name & -> & [[Hp Hlen] | (q0 & q1 & -> & H0 & H1 & L0 & L)]).
  - rewrite chars_text, length_text.
    split; [apply plain_names, Hp |]. split; [exact Hlen |].
    rewrite (plain_underscores name Hp). lia.
  - rewrite chars_text, length_text. split.
    { apply Forall_app. split; [apply plain_names, H0 |].
      constructor; [apply underscore_classes | apply plain_names, H1]. }
    split; [rewrite length_app; cbn [length]; lia |].
    rewrite underscores_app.
    change (underscore :: q1) with ([underscore] ++ q1).
    rewrite underscores_app, (plain_underscores q0 H0),
      (plain_underscores q1 H1).
    cbn. lia.
Qed.

(** X15.  Cleaning a cleaned name changes nothing. *)
Theorem clean_company_name_idempotent (company_name : string) :
  clean_company_name (clean_company_name company_name)
  = clean_company_name company_name.
Proof.
  destruct (clean_company_name_shape company_name)
    as (name & -> & [[Hp Hlen] | (q0 & q1 & -> & H0 & H1 & L0 & L)]).
  - unfold clean_company_name. rewrite chars_text.
    rewrite (re_split_no_separator name [] (plain_no_separator name Hp)).
    cbn [rev app].
    assert (Hf : List.filter is_name_char name = name)
      by exact (filter_name_id name (plain_names name Hp)).
    assert (H20 : (20 <? length name)%nat = false)
      by (apply Nat.ltb_ge; exact Hlen).
    destruct (8 <=? length name)%nat; rewrite Hf, H20; reflexivity.
  - unfold clean_company_name. rewrite chars_text.
    rewrite (re_split_two q0 q1 [] (plain_no_separator q0 H0)
               (plain_no_separator q1 H1)).
    cbn [rev app].
    assert (H8 : (8 <=? length q0)%nat = false)
      by (apply Nat.leb_gt; exact L0).
    assert (H15 : (length q0 + length q1 <? 15)%nat = true)
      by (apply Nat.ltb_lt; exact L).
    rewrite H8, H15.
    assert (Hf : List.filter is_name_char (q0 ++ underscore :: q1)
                 = q0 ++ underscore :: q1).
    { apply filter_name_id. apply Forall_app.
      split; [apply plain_names, H0 |].
      constructor; [apply underscore_classes | apply plain_names, H1]. }
    assert (H20 : (20 <? length (q0 ++ underscore :: q1))%nat = false)
      by (apply Nat.ltb_ge; rewrite length_app; cbn [length]; lia).
    rewrite Hf, H20. reflexivity.
Qed.

Lemma re_split_concat (s cur : list ascii) (in_run : bool) :
  concat (re_split_separators cur in_run s)
  = rev cur ++ List.filter (fun c => negb (is_separator c)) s.
Proof.
  revert cur in_run. induction s as [| c rest IH]; intros cur in_run.
  - cbn [re_split_separators concat List.filter]. reflexivity.
  - cbn [re_split_separators List.filter]. destruct (is_separator c).
    + cbn [negb]. destruct in_run; [apply IH |].
      cbn [concat]. rewrite (IH [] true). reflexivity.
    + cbn [negb]. rewrite (IH (c :: cur) false). cbn [rev].
      rewrite <- app_assoc. reflexivity.
Qed.

(** X16.  The parts that [clean_company_name] splits a name into: there
    is always at least one, so the default name [Company] is never used;
    no part holds a separator; and the parts, one after the other, are
    the name without its separators. *)
Theorem company_name_parts (company_name : string) :
  re_split_separators [] false (chars company_name) ≠ []
  ∧ Forall (Forall (fun c => is_separator c = false))
      (re_split_separators [] false (chars company_name))
  ∧ concat (re_split_separators [] false (chars company_name))
    = List.filter (fun c => negb (is_separator c)) (chars company_name).
Proof.
  split; [apply re_split_nonempty |].
  split; [apply re_split_pieces; constructor |].
  apply (re_split_concat (chars company_name) [] false).
Qed.
